(** * traceTM_newdrop: breadth-first simulation of a nondeterministic
    Turing machine

    A shallow embedding of [src/traceTM_newdrop.py]: the class
    [NonDeterministicTM], its rule table (a dict of lists), the method
    [execute] with its two mutable limit attributes, and the acceptance
    report [print_accept_path].  Python integers are unbounded, so every
    counter and limit is a [Z]; tapes are Python strings, taken apart into
    lists of one-character strings and joined again exactly where the
    source does so. *)

From stdpp Require Import gmap strings list fin_maps.
From Stdlib Require Import ZArith QArith_base Lia.

Local Open Scope string_scope.
Local Open Scope Z_scope.
Local Open Scope list_scope.

(** ** Data model *)

(** A rule right-hand side [(next_state, write_symbol, move_dir)]; all three
    are cells of a CSV row, hence arbitrary strings. *)
Abbreviation transition := (string * string * string)%type.

(** A configuration is the three-element list
    [[tape_left, current_state, tape_right]] (source line 43). *)
Record config := Config {
  tape_left : string;
  current_state : string;
  tape_right : string
}.

Global Instance config_eq_dec : EqDecision config.
Proof. solve_decision. Defined.

(** The attributes of a [NonDeterministicTM] object (source lines 9-17 and
    26).  [depth_limit] and [transition_limit] are overwritten by every call
    of [execute]. *)
Record NonDeterministicTM := TM {
  name : string;
  rules : gmap (string * string) (list transition);
  all_states : gset string;
  input_symbols : gset string;
  tape_symbols : gset string;
  start : string;
  accept : string;
  reject : string;
  depth_limit : Z;
  transition_limit : Z
}.

(** The exceptions that the modelled statements can raise. *)
Inductive exn := ZeroDivisionError | IndexError.

(** What [print_accept_path] prints: one line per configuration of the
    levels [0..depth], their number, and the quotient
    [num_configs / depth] (Python prints the double nearest to this
    rational). *)
Record report := Report {
  level_lines : list (Z * config);
  num_configs : Z;
  average_nondeterminism : Q
}.

(** The five ways [execute] returns, with the numbers its messages print. *)
Inductive Outcome :=
| Accepted (transitions_consumed depth : Z) (rep : report)
| Rejected (transitions_consumed depth : Z)
| DepthLimitExceeded (transitions_consumed depth : Z)
| TransitionLimitExceeded (transitions_consumed : Z)
| NoPath.

Inductive result :=
| Return (o : Outcome)
| Raise (e : exn).

(** The locals [config_tree] and [steps_count] of [execute]. *)
Abbreviation locals := (list (list config) * Z)%type.

(** ** Loading the rule table (source lines 34-36) *)

(** [self.rules[(current_state, read_symbol)].append(...)] on a
    [defaultdict(list)]. *)
Definition add_rule (rs : gmap (string * string) (list transition))
    (current_state read_symbol next_state write_symbol move_dir : string)
  : gmap (string * string) (list transition) :=
  <[(current_state, read_symbol) :=
      default [] (rs !! (current_state, read_symbol))
        ++ [(next_state, write_symbol, move_dir)]]> rs.

(** The loop over [rows[7:]]; a row that does not unpack into five cells
    raises, modelled by [None]. *)
Fixpoint load_rules (rows : list (list string))
    (rs : gmap (string * string) (list transition))
  : option (gmap (string * string) (list transition)) :=
  match rows with
  | [] => Some rs
  | [cs; rd; ns; wr; mv] :: rows' => load_rules rows' (add_rule rs cs rd ns wr mv)
  | _ :: _ => None
  end.

(** [load_from_file] after the CSV reader produced [rows]. *)
Definition load_from_rows (rows : list (list string)) : option NonDeterministicTM :=
  nm ← rows !! 0%nat ≫= head;
  sts ← rows !! 1%nat;
  ins ← rows !! 2%nat;
  tps ← rows !! 3%nat;
  st ← rows !! 4%nat ≫= head;
  ac ← rows !! 5%nat ≫= head;
  rj ← rows !! 6%nat ≫= head;
  rs ← load_rules (drop 7 rows) ∅;
  Some {| name := nm; rules := rs;
          all_states := list_to_set sts;
          input_symbols := list_to_set ins;
          tape_symbols := list_to_set tps;
          start := st; accept := ac; reject := rj;
          depth_limit := 100; transition_limit := 1000 |}.

(** ** Strings as lists of characters *)

(** [list(s)]: the one-character strings of [s]. *)
Fixpoint chars (s : string) : list string :=
  match s with
  | EmptyString => []
  | String c s' => String c EmptyString :: chars s'
  end.

(** ["".join(l)]. *)
Definition join (l : list string) : string := String.concat "" l.

(** [tape_right[0] if tape_right else "_"] (source line 66). *)
Definition read_symbol (tape_right : string) : string :=
  match tape_right with
  | String c _ => String c EmptyString
  | EmptyString => "_"
  end.

(** [l.pop()] on a non-empty list: the list without its last element, and
    that element. *)
Definition pop_last {A} (l : list A) : option (list A * A) :=
  match last l with
  | Some x => Some (removelast l, x)
  | None => None
  end.

(** ** One transition (source lines 83-104) *)

(** The write: [new_right[0] = write_symbol] or
    [new_right.append(write_symbol)]. *)
Definition write_head (new_right : list string) (write_symbol : string) : list string :=
  match new_right with
  | _ :: _ => <[0%nat := write_symbol]> new_right
  | [] => new_right ++ [write_symbol]
  end.

(** The move; a [move_dir] other than ["L"] and ["R"] moves nothing. *)
Definition move_head (new_left new_right : list string) (move_dir : string)
  : list string * list string :=
  if String.eqb move_dir "L" then
    match pop_last new_left with
    | Some (new_left', c) => (new_left', c :: new_right)
    | None => (new_left, "_" :: new_right)
    end
  else if String.eqb move_dir "R" then
    let '(new_left, new_right) :=
      match new_right with
      | c :: new_right' => (new_left ++ [c], new_right')
      | [] => (new_left, new_right)
      end in
    match new_right with
    | [] => (new_left, new_right ++ ["_"])
    | _ :: _ => (new_left, new_right)
    end
  else (new_left, new_right).

Definition apply_transition (tape_left tape_right : string) (t : transition) : config :=
  let '(next_state, write_symbol, move_dir) := t in
  let new_left := chars tape_left in
  let new_right := write_head (chars tape_right) write_symbol in
  let '(new_left, new_right) := move_head new_left new_right move_dir in
  Config (join new_left) next_state (join new_right).

(** ** The acceptance report (source lines 124-132) *)

(** The two nested loops: for [level] in [range(depth + 1)], one line per
    configuration of [tree[level]]; [tree[level]] raises [IndexError] past
    the end of the tree. *)
Fixpoint print_levels (tree : list (list config)) (levels : list nat)
    (printed : list (Z * config)) : exn + list (Z * config) :=
  match levels with
  | [] => inr printed
  | level :: levels' =>
      match tree !! level with
      | None => inl IndexError
      | Some configs =>
          print_levels tree levels'
            (printed ++ map (λ c, (Z.of_nat level, c)) configs)
      end
  end.

(** [num_configs/depth] is evaluated with no test on [depth]: Python raises
    [ZeroDivisionError] when [depth] is [0]. *)
Definition print_accept_path (tree : list (list config)) (depth : Z) : exn + report :=
  match print_levels tree (seq 0 (Z.to_nat (depth + 1))) [] with
  | inl e => inl e
  | inr printed =>
      let num_configs := Z.of_nat (length printed) in
      if bool_decide (depth = 0) then inl ZeroDivisionError
      else inr (Report printed num_configs
                  (Qdiv (inject_Z num_configs) (inject_Z depth)))
  end.

(** ** The simulation (source lines 38-122) *)

(** Lines 57-60: the acceptance messages, the report, [return]. *)
Definition accept_and_halt (config_tree : list (list config)) (steps_count : Z) : result :=
  let depth := Z.of_nat (length config_tree) - 1 in
  match print_accept_path config_tree depth with
  | inl e => Raise e
  | inr rep => Return (Accepted steps_count depth rep)
  end.

(** The [for] loop over [current_level] (lines 54-104) either returns from
    [execute] or falls through with [next_level] and [steps_count]. *)
Inductive scan :=
| ScanReturn (r : result) (steps_count : Z)
| ScanDone (next_level : list config) (steps_count : Z).

Fixpoint scan_level (self : NonDeterministicTM) (config_tree : list (list config))
    (current_level next_level : list config) (steps_count : Z) : scan :=
  match current_level with
  | [] => ScanDone next_level steps_count
  | Config tape_left current_state tape_right :: rest =>
      if String.eqb current_state (accept self) then
        ScanReturn (accept_and_halt config_tree steps_count) steps_count
      else if String.eqb current_state (reject self) then
        scan_level self config_tree rest next_level steps_count
      else
        let current_symbol := read_symbol tape_right in
        let steps_count := steps_count + 1 in
        if bool_decide (steps_count > transition_limit self) then
          ScanReturn (Return (TransitionLimitExceeded (transition_limit self)))
            steps_count
        else
          let transitions :=
            default [] (rules self !! (current_state, current_symbol)) in
          match transitions with
          | [] =>
              scan_level self config_tree rest
                (next_level ++ [Config tape_left (reject self) tape_right])
                steps_count
          | _ :: _ =>
              scan_level self config_tree rest
                (next_level ++ map (apply_transition tape_left tape_right) transitions)
                steps_count
          end
  end.

(** [any(cfg[1] != self.reject for cfg in next_level)] (line 117). *)
Definition any_not_reject (self : NonDeterministicTM) (next_level : list config) : bool :=
  existsb (λ cfg, negb (String.eqb (current_state cfg) (reject self))) next_level.

(** [if next_level: config_tree.append(next_level)] (lines 107-108). *)
Definition append_level (config_tree : list (list config))
    (next_level : list config) : list (list config) :=
  match next_level with
  | [] => config_tree
  | _ :: _ => config_tree ++ [next_level]
  end.

(** One pass through the body of the [while] loop (lines 51-120). *)
Inductive round :=
| Halt (r : result) (st : locals)
| Continue (st : locals).

Definition loop_body (self : NonDeterministicTM) (config_tree : list (list config))
    (steps_count : Z) : round :=
  match last config_tree with
  | None => Halt (Raise IndexError) (config_tree, steps_count)
  | Some current_level =>
      match scan_level self config_tree current_level [] steps_count with
      | ScanReturn r steps_count => Halt r (config_tree, steps_count)
      | ScanDone next_level steps_count =>
          let config_tree := append_level config_tree next_level in
          if bool_decide (Z.of_nat (length config_tree) > depth_limit self) then
            Halt (Return (DepthLimitExceeded steps_count (depth_limit self)))
              (config_tree, steps_count)
          else if negb (any_not_reject self next_level) then
            Halt (Return (Rejected steps_count (Z.of_nat (length config_tree) - 1)))
              (config_tree, steps_count)
          else Continue (config_tree, steps_count)
      end
  end.

(** The [while] loop (line 50) and the final message (line 122).  The loop is
    unrolled at most [fuel] times; [None] stands for a loop that is still
    running when the fuel is spent. *)
Fixpoint while_loop (fuel : nat) (self : NonDeterministicTM)
    (config_tree : list (list config)) (steps_count : Z) : option (result * locals) :=
  match config_tree with
  | [] => Some (Return NoPath, (config_tree, steps_count))
  | _ :: _ =>
      if bool_decide (steps_count < transition_limit self) then
        match fuel with
        | O => None
        | S fuel' =>
            match loop_body self config_tree steps_count with
            | Halt r st => Some (r, st)
            | Continue (config_tree', steps_count') =>
                while_loop fuel' self config_tree' steps_count'
            end
        end
      else Some (Return NoPath, (config_tree, steps_count))
  end.

(** Lines 40-41: the two attribute assignments. *)
Definition set_limits (self : NonDeterministicTM) (max_depth max_steps : Z)
  : NonDeterministicTM :=
  {| name := name self; rules := rules self;
     all_states := all_states self;
     input_symbols := input_symbols self;
     tape_symbols := tape_symbols self;
     start := start self; accept := accept self; reject := reject self;
     depth_limit := max_depth; transition_limit := max_steps |}.

(** [execute] returns the object as the call leaves it, and how the call
    ended together with the locals at that point.  The fuel [max_steps] is
    enough for every call ([execute_total] below). *)
Definition execute (self : NonDeterministicTM) (input_data : string)
    (max_depth max_steps : Z) : NonDeterministicTM * option (result * locals) :=
  let self := set_limits self max_depth max_steps in
  let initial_state := Config "" (start self) input_data in
  let config_tree := [[initial_state]] in
  let steps_count := 0 in
  (self, while_loop (Z.to_nat max_steps) self config_tree steps_count).

(** The engine operation of the specification: how a call of [execute]
    ends. *)
Definition run (self : NonDeterministicTM) (input_data : string)
    (max_depth max_steps : Z) : option (result * locals) :=
  (execute self input_data max_depth max_steps).2.

(** ** Example machines, as the rows of their definition files *)

Definition rows_header (nm : string) : list (list string) :=
  [[nm]; ["q0"; "qacc"; "qrej"]; ["a"; "0"]; ["a"; "0"; "1"; "_"];
   ["q0"]; ["qacc"]; ["qrej"]].

Definition tm_of_rows (rows : list (list string)) : NonDeterministicTM :=
  default (TM "" ∅ ∅ ∅ ∅ "" "" "" 100 1000) (load_from_rows rows).

(** No rule at all: the machine is stuck in [q0]. *)
Definition stuck_tm : NonDeterministicTM := tm_of_rows (rows_header "stuck").

(** Two rules for [(q0, a)], in both orders. *)
Definition race_accept_first : NonDeterministicTM :=
  tm_of_rows (rows_header "race1" ++
    [["q0"; "a"; "qacc"; "a"; "R"]; ["q0"; "a"; "q0"; "a"; "R"]]).

Definition race_loop_first : NonDeterministicTM :=
  tm_of_rows (rows_header "race2" ++
    [["q0"; "a"; "q0"; "a"; "R"]; ["q0"; "a"; "qacc"; "a"; "R"]]).

(** A machine that runs right over [a]s and blanks for ever. *)
Definition looping_tm : NonDeterministicTM :=
  tm_of_rows (rows_header "loop" ++
    [["q0"; "a"; "q0"; "a"; "R"]; ["q0"; "_"; "q0"; "a"; "R"]]).

(** The start state is the accept state. *)
Definition trivial_tm : NonDeterministicTM :=
  tm_of_rows [["trivial"]; ["q0"; "qrej"]; ["a"]; ["a"; "_"];
              ["q0"]; ["q0"]; ["qrej"]].

(** Two rules for every symbol: each configuration forks in two. *)
Definition forking_tm : NonDeterministicTM :=
  tm_of_rows (rows_header "fork" ++
    [["q0"; "a"; "q0"; "a"; "R"]; ["q0"; "a"; "q0"; "a"; "L"];
     ["q0"; "_"; "q0"; "_"; "R"]; ["q0"; "_"; "q0"; "_"; "L"]]).

(** The looping race machine under another name, with other sets and with
    limits left behind by an earlier call. *)
Definition renamed_race_tm : NonDeterministicTM :=
  {| name := "renamed"; rules := rules race_loop_first;
     all_states := {["zz"]}; input_symbols := ∅; tape_symbols := {["a"; "b"]};
     start := start race_loop_first; accept := accept race_loop_first;
     reject := reject race_loop_first;
     depth_limit := 3; transition_limit := 4 |}.

(** A rule row with an empty write cell and a direction that is neither
    [L] nor [R]. *)
Definition empty_write_tm : NonDeterministicTM :=
  tm_of_rows (rows_header "emptywrite" ++ [["q0"; "_"; "q0"; ""; "S"]]).

(** Three rules for [(q0, a)]: two that go on, then one that accepts. *)
Definition fork_accept_tm : NonDeterministicTM :=
  tm_of_rows (rows_header "forkaccept" ++
    [["q0"; "a"; "q0"; "a"; "R"]; ["q0"; "a"; "q0"; "a"; "L"];
     ["q0"; "a"; "qacc"; "a"; "R"]; ["q0"; "_"; "q0"; "_"; "R"]]).

(** ** The level scan *)

(** A configuration is examined for expansion when its state is neither the
    accept nor the reject state. *)
Definition expandable (self : NonDeterministicTM) (c : config) : bool :=
  negb (String.eqb (current_state c) (accept self))
  && negb (String.eqb (current_state c) (reject self)).

Definition examined (self : NonDeterministicTM) (level : list config) : Z :=
  Z.of_nat (length (List.filter (expandable self) level)).

(** ** Vocabulary of the statements *)

(** What a halting round reports, and the locals it leaves. *)
Definition halt_spec (self : NonDeterministicTM)
    (tree : list (list config)) (steps_count : Z)
    (r : result) (tree' : list (list config)) (steps_count' : Z) : Prop :=
  match r with
  | Return (Accepted s d _) =>
      tree' = tree ∧ s = steps_count' ∧ d = Z.of_nat (length tree) - 1
      ∧ 0 < d
      ∧ (steps_count < steps_count' → steps_count' ≤ transition_limit self)
  | Return (Rejected s d) =>
      s = steps_count' ∧ d = Z.of_nat (length tree') - 1
      ∧ Z.of_nat (length tree') ≤ depth_limit self
      ∧ (length tree ≤ length tree' ≤ length tree + 1)%nat
      ∧ (steps_count < steps_count' → steps_count' ≤ transition_limit self)
  | Return (DepthLimitExceeded s d) =>
      s = steps_count' ∧ d = depth_limit self
      ∧ depth_limit self < Z.of_nat (length tree')
      ∧ (length tree ≤ length tree' ≤ length tree + 1)%nat
      ∧ (steps_count < steps_count' → steps_count' ≤ transition_limit self)
  | Return (TransitionLimitExceeded s) =>
      tree' = tree ∧ s = transition_limit self
      ∧ transition_limit self < steps_count'
      ∧ (steps_count ≤ transition_limit self →
         steps_count' = transition_limit self + 1)
  | Return NoPath => False
  | Raise ZeroDivisionError =>
      tree' = tree ∧ Z.of_nat (length tree) = 1
      ∧ (∃ level, last tree = Some level
                  ∧ Exists (λ c, current_state c = accept self) level)
      ∧ (steps_count < steps_count' → steps_count' ≤ transition_limit self)
  | Raise IndexError => False
  end.

(** One turn of the [while] loop from one pair of locals to the next. *)
Definition loop_step (self : NonDeterministicTM) (st st' : locals) : Prop :=
  st.1 ≠ [] ∧ st.2 < transition_limit self
  ∧ loop_body self st.1 st.2 = Continue st'.

(** The locals with which [execute] enters its loop. *)
Definition initial_locals (self : NonDeterministicTM) (input_data : string) : locals :=
  ([[Config "" (start self) input_data]], 0).

(** The locals that a run on [input_data] has at the head of its loop. *)
Definition reachable (self : NonDeterministicTM) (input_data : string)
    (st : locals) : Prop :=
  rtc (loop_step self) (initial_locals self input_data) st.

(** The depth that an outcome reports, if it reports one. *)
Definition reported_depth (o : Outcome) : option Z :=
  match o with
  | Accepted _ d _ | Rejected _ d | DepthLimitExceeded _ d => Some d
  | TransitionLimitExceeded _ | NoPath => None
  end.

(** The transition count that an outcome reports, if it reports one. *)
Definition reported_transitions (o : Outcome) : option Z :=
  match o with
  | Accepted n _ _ | Rejected n _ | DepthLimitExceeded n _
  | TransitionLimitExceeded n => Some n
  | NoPath => None
  end.

(** What the depth test of a round (lines 110-114) decides, read off the
    way the round ends: a [DepthLimitExceeded] halt leaves a tree of more
    than [max_depth] levels, and a round that passes the test (it continues,
    or halts [Rejected]) leaves one of at most [max_depth] levels.  A round
    that ends in any other way returned from the level scan, before the
    tree was touched. *)
Definition depth_test_spec (max_depth : Z) (st : locals) (rd : round) : Prop :=
  match rd with
  | Halt (Return (DepthLimitExceeded n d)) st' =>
      max_depth < Z.of_nat (length st'.1)
      ∧ (1 ≤ max_depth → Z.of_nat (length st'.1) = max_depth + 1)
      ∧ d = max_depth ∧ n = st'.2
  | Halt (Return (Rejected _ _)) st' => Z.of_nat (length st'.1) ≤ max_depth
  | Continue st' => Z.of_nat (length st'.1) ≤ max_depth
  | Halt _ st' => st'.1 = st.1
  end.

(** The configurations that lines 74-104 append to [next_level] for a
    configuration that is examined: the synthesized rejecting one when no
    rule applies, one per rule otherwise. *)
Definition successors (self : NonDeterministicTM) (c : config) : list config :=
  match default [] (rules self !! (current_state c, read_symbol (tape_right c))) with
  | [] => [Config (tape_left c) (reject self) (tape_right c)]
  | t :: ts => map (apply_transition (tape_left c) (tape_right c)) (t :: ts)
  end.

(** What the simulation reads of an object: its rule table, its accept and
    reject states and its two limits. *)
Definition same_machine (self1 self2 : NonDeterministicTM) : Prop :=
  rules self1 = rules self2
  ∧ accept self1 = accept self2
  ∧ reject self1 = reject self2
  ∧ depth_limit self1 = depth_limit self2
  ∧ transition_limit self1 = transition_limit self2.

(** ** Vocabulary of the further properties *)

(** The rules that the rows of a definition file give to the key [k], in
    the order of the rows. *)
Definition row_rule (k : string * string) (row : list string) : list transition :=
  match row with
  | [cs; rd; ns; wr; mv] => if decide ((cs, rd) = k) then [(ns, wr, mv)] else []
  | _ => []
  end.

Definition rules_of_rows (k : string * string) (rows : list (list string))
  : list transition :=
  flat_map (row_rule k) rows.

(** [tape_right[1:]]: the cells behind the head. *)
Definition behind_head (r : string) : string :=
  match r with
  | String _ r' => r'
  | EmptyString => EmptyString
  end.

(** The lines of the report for consecutive levels, the first of which has
    the number [i]. *)
Fixpoint level_census (i : nat) (levels : list (list config)) : list (Z * config) :=
  match levels with
  | [] => []
  | level :: levels' =>
      map (λ c, (Z.of_nat i, c)) level ++ level_census (S i) levels'
  end.

(** The configuration with which a run starts. *)
Definition initial_config (self : NonDeterministicTM) (input_data : string) : config :=
  Config "" (start self) input_data.

(** The level that follows [level]: the successors of its configurations
    that are examined, in order. *)
Definition next_level_of (self : NonDeterministicTM) (level : list config)
  : list config :=
  flat_map (successors self) (List.filter (expandable self) level).

(** The levels of the breadth-first exploration from [c0], the tree of the
    levels [0..k], and the number of configurations examined in the levels
    below [k]. *)
Fixpoint bfs_level (self : NonDeterministicTM) (c0 : config) (k : nat) : list config :=
  match k with
  | O => [c0]
  | S k' => next_level_of self (bfs_level self c0 k')
  end.

Definition bfs_tree (self : NonDeterministicTM) (c0 : config) (k : nat)
  : list (list config) :=
  map (bfs_level self c0) (seq 0 (S k)).

Fixpoint consumed (self : NonDeterministicTM) (c0 : config) (k : nat) : Z :=
  match k with
  | O => 0
  | S k' => consumed self c0 k' + examined self (bfs_level self c0 k')
  end.

(** [path self c0 k c]: the machine gets from [c0] to [c] in [k] steps, each
    from a configuration that is neither accepting nor rejecting to one of
    its successors. *)
Inductive path (self : NonDeterministicTM) (c0 : config) : nat → config → Prop :=
| path_start : path self c0 0 c0
| path_step k c c' :
    path self c0 k c →
    expandable self c = true →
    c' ∈ successors self c →
    path self c0 (S k) c'.

(** ** Lemmas on the level scan, the rounds and the loop *)

Section Engine.

Variable self : NonDeterministicTM.

Lemma examined_nonneg level : 0 ≤ examined self level.
Proof. unfold examined. lia. Qed.

Lemma examined_cons c level :
  examined self (c :: level)
  = (if expandable self c then 1 else 0) + examined self level.
Proof.
  unfold examined. simpl. destruct (expandable self c); simpl; lia.
Qed.

(** A scan that falls through met no accepting configuration, counted one
    step for each configuration it expanded, stayed within the transition
    limit, and only appended to [next_level]; it appended something exactly
    when it counted a step. *)
Lemma scan_level_done tree level next_level steps_count next_level' steps_count' :
  scan_level self tree level next_level steps_count
    = ScanDone next_level' steps_count' →
  steps_count' = steps_count + examined self level
  ∧ Forall (λ c, current_state c ≠ accept self) level
  ∧ (steps_count < steps_count' → steps_count' ≤ transition_limit self)
  ∧ ∃ added, next_level' = next_level ++ added
             ∧ (added = [] ↔ steps_count' = steps_count).
Proof.
  revert next_level steps_count.
  induction level as [|[l q r] level IH]; intros next_level steps_count H;
    simpl in H.
  - injection H as <- <-. unfold examined; simpl.
    repeat split; [lia | constructor | lia | ].
    exists []. rewrite app_nil_r. done.
  - rewrite examined_cons. unfold expandable; simpl.
    destruct (String.eqb_spec q (accept self)) as [Hacc|Hacc]; [discriminate|].
    destruct (String.eqb_spec q (reject self)) as [Hrej|Hrej]; simpl.
    + apply IH in H as (Hs & Hall & Hlim & added & Hnl & Hadd).
      repeat split; [lia | by constructor | lia | ].
      exists added. split; [done|]. rewrite Hadd. lia.
    + case_bool_decide as Hgt; [discriminate|].
      pose proof (examined_nonneg level) as Hex.
      destruct (default [] (rules self !! (q, read_symbol r))) as [|t ts];
        apply IH in H as (Hs & Hall & Hlim & added & Hnl & Hadd);
        (repeat split; [lia | by constructor | lia | ]).
      * exists (Config l (reject self) r :: added).
        rewrite Hnl, <- app_assoc. split; [done|]. split; [done | lia].
      * exists (map (apply_transition l r) (t :: ts) ++ added).
        rewrite Hnl, <- app_assoc. split; [done|]. split; [done | lia].
Qed.

(** A scan that returns does so either on an accepting configuration, with
    the counter within the limit, or on the step that takes the counter one
    past the limit. *)
Lemma scan_level_return tree level next_level steps_count r steps_count' :
  scan_level self tree level next_level steps_count = ScanReturn r steps_count' →
  steps_count ≤ steps_count' ≤ steps_count + Z.of_nat (length level)
  ∧ ((r = accept_and_halt tree steps_count'
      ∧ (steps_count < steps_count' → steps_count' ≤ transition_limit self)
      ∧ Exists (λ c, current_state c = accept self) level)
     ∨ (r = Return (TransitionLimitExceeded (transition_limit self))
        ∧ transition_limit self < steps_count'
        ∧ (steps_count ≤ transition_limit self →
           steps_count' = transition_limit self + 1))).
Proof.
  revert next_level steps_count.
  induction level as [|[l q rt] level IH]; intros next_level steps_count H;
    simpl in H; [discriminate|].
  destruct (String.eqb_spec q (accept self)) as [Hacc|Hacc].
  { injection H as <- <-. split; [simpl length; lia|]. left.
    split; [done|]. split; [lia|]. by constructor. }
  destruct (String.eqb_spec q (reject self)) as [Hrej|Hrej].
  { apply IH in H as [Hb [(-> & Hlim & Hex)|(-> & Hlt & Heq)]].
    - split; [simpl length; lia|]. left. split; [done|]. split; [done|].
      by apply Exists_cons_tl.
    - split; [simpl length; lia|]. right. done. }
  case_bool_decide as Hgt.
  { injection H as <- <-. split; [simpl length; lia|]. right.
    split; [done|]. split; lia. }
  destruct (default [] (rules self !! (q, read_symbol rt))) as [|t ts];
    apply IH in H as [Hb [(-> & Hlim & Hex)|(-> & Hlt & Heq)]];
    (split; [simpl length; lia|]).
  - left. split; [done|]. split; [lia|]. by apply Exists_cons_tl.
  - right. split; [done|]. split; lia.
  - left. split; [done|]. split; [lia|]. by apply Exists_cons_tl.
  - right. split; [done|]. split; lia.
Qed.

(** *** The acceptance report inside [execute] *)

Lemma print_levels_in_range (tree : list (list config)) levels printed :
  Forall (λ i, (i < length tree)%nat) levels →
  ∃ printed', print_levels tree levels printed = inr printed'.
Proof.
  revert printed. induction levels as [|i levels IH]; intros printed Hall;
    simpl; [by eexists|].
  inversion Hall as [|? ? Hi Hrest]; subst.
  destruct (lookup_lt_is_Some_2 tree i Hi) as [configs ->].
  by apply IH.
Qed.

(** Called on the whole tree, the report raises exactly when the tree has a
    single level. *)
Lemma accept_and_halt_cases (tree : list (list config)) steps_count :
  tree ≠ [] →
  (Z.of_nat (length tree) = 1
   ∧ accept_and_halt tree steps_count = Raise ZeroDivisionError)
  ∨ (1 < Z.of_nat (length tree)
     ∧ ∃ rep, accept_and_halt tree steps_count
              = Return (Accepted steps_count (Z.of_nat (length tree) - 1) rep)).
Proof.
  intros Hne. unfold accept_and_halt, print_accept_path.
  assert (0 < Z.of_nat (length tree)) as Hlen.
  { destruct tree; [done | simpl length; lia]. }
  destruct (print_levels_in_range tree
              (seq 0 (Z.to_nat (Z.of_nat (length tree) - 1 + 1))) [])
    as [printed ->].
  { apply Forall_forall. intros i Hi. apply elem_of_seq in Hi. lia. }
  case_bool_decide as Hd.
  - left. split; [lia | done].
  - right. split; [lia | by eexists].
Qed.

(** *** One round *)

(** A round that continues appended a level, counted at least one step,
    and left the counter and the tree within their limits. *)
Lemma loop_body_continue tree steps_count tree' steps_count' :
  loop_body self tree steps_count = Continue (tree', steps_count') →
  ∃ level next_level,
    last tree = Some level
    ∧ next_level ≠ []
    ∧ tree' = tree ++ [next_level]
    ∧ steps_count' = steps_count + examined self level
    ∧ steps_count < steps_count' ≤ transition_limit self
    ∧ Z.of_nat (length tree') ≤ depth_limit self.
Proof.
  unfold loop_body. destruct (last tree) as [level|]; [|discriminate].
  destruct (scan_level self tree level [] steps_count)
    as [r s|next_level s] eqn:Hscan; [discriminate|].
  apply scan_level_done in Hscan as (Hs & _ & Hlim & added & Hnl & Hadd).
  case_bool_decide as Hdepth; [discriminate|].
  destruct (any_not_reject self next_level) eqn:Hany; [|discriminate].
  simpl. intros [= <- <-]. exists level, next_level.
  destruct next_level as [|c next_level]; [discriminate Hany|].
  simpl in Hnl. subst added.
  assert (s ≠ steps_count) as Hneq by (intros Heq; by apply Hadd in Heq).
  pose proof (examined_nonneg level).
  repeat split; [done | done | lia | lia | lia].
Qed.

Lemma loop_body_halt tree steps_count r tree' steps_count' :
  tree ≠ [] →
  loop_body self tree steps_count = Halt r (tree', steps_count') →
  steps_count ≤ steps_count'
  ∧ halt_spec self tree steps_count r tree' steps_count'.
Proof.
  intros Hne. unfold loop_body.
  destruct (last tree) as [level|] eqn:Hlast;
    [|by apply last_None in Hlast].
  destruct (scan_level self tree level [] steps_count)
    as [r0 s|next_level s] eqn:Hscan.
  - intros [= <- <- <-].
    apply scan_level_return in Hscan
      as [Hb [(-> & Hlim & Hex)|(-> & Hlt & Heq)]];
      (split; [lia|]).
    + destruct (accept_and_halt_cases tree s Hne)
        as [[Hlen ->]|[Hlen [rep ->]]]; simpl.
      * repeat split; [done | | done]. by exists level.
      * repeat split; [lia | done].
    + simpl. done.
  - apply scan_level_done in Hscan as (Hs & _ & Hlim & _).
    pose proof (examined_nonneg level).
    assert (length tree ≤ length (append_level tree next_level)
            ≤ length tree + 1)%nat as Hlen.
    { unfold append_level.
      destruct next_level; [lia | rewrite length_app; simpl; lia]. }
    case_bool_decide as Hdepth.
    + intros [= <- <- <-]. split; [lia|]. simpl. repeat split; [lia|lia|lia|done].
    + destruct (any_not_reject self next_level); simpl; [discriminate|].
      intros [= <- <- <-]. split; [lia|]. simpl.
      repeat split; [lia|lia|lia|done].
Qed.

(** *** The loop *)

(** The fuel is never spent: every turn that continues counts a step, and
    the loop guard bounds the counter. *)
Lemma while_loop_total fuel tree steps_count :
  transition_limit self - steps_count ≤ Z.of_nat fuel →
  is_Some (while_loop fuel self tree steps_count).
Proof.
  revert tree steps_count.
  induction fuel as [|fuel IH]; intros tree steps_count Hfuel;
    destruct tree as [|l tree]; simpl; [done | | done | ].
  - case_bool_decide; [lia | done].
  - case_bool_decide; [|done].
    destruct (loop_body self (l :: tree) steps_count) as [r st|[t' s']] eqn:Hb;
      [done|].
    apply loop_body_continue in Hb as (? & ? & _ & _ & _ & _ & Hs & _).
    apply IH. lia.
Qed.

(** A finished loop either fell out of its guard with [NoPath], or halted
    inside a round begun at locals it reached. *)
Lemma while_loop_ends fuel tree steps_count r st' :
  while_loop fuel self tree steps_count = Some (r, st') →
  ∃ st, rtc (loop_step self) (tree, steps_count) st
    ∧ ((r = Return NoPath ∧ st' = st
        ∧ (st.1 = [] ∨ ¬ st.2 < transition_limit self))
       ∨ (st.1 ≠ [] ∧ st.2 < transition_limit self
          ∧ loop_body self st.1 st.2 = Halt r st')).
Proof.
  revert tree steps_count.
  induction fuel as [|fuel IH]; intros tree steps_count;
    (destruct tree as [|l tree]; simpl;
     [ intros [= <- <-]; eexists; split; [apply rtc_refl|]; left; simpl; auto
     | case_bool_decide as Hg;
       [| intros [= <- <-]; eexists; split; [apply rtc_refl|]; left; simpl; auto ]
     ]); [discriminate|].
  destruct (loop_body self (l :: tree) steps_count) as [r0 st0|[t' s']] eqn:Hb.
  - intros [= <- <-]. exists (l :: tree, steps_count).
    split; [apply rtc_refl|]. right. simpl. done.
  - intros H. apply IH in H as (st & Hrtc & Hend).
    exists st. split; [|done].
    eapply rtc_l; [|exact Hrtc]. split; [done|]. split; done.
Qed.

(** Unfolding one turn of the loop. *)
Lemma while_loop_halt fuel tree steps_count r st :
  tree ≠ [] → steps_count < transition_limit self →
  loop_body self tree steps_count = Halt r st →
  while_loop (S fuel) self tree steps_count = Some (r, st).
Proof.
  intros Hne Hg Hb. destruct tree; [done|]. simpl.
  rewrite bool_decide_true by done. by rewrite Hb.
Qed.

Lemma while_loop_continue fuel tree steps_count tree' steps_count' :
  tree ≠ [] → steps_count < transition_limit self →
  loop_body self tree steps_count = Continue (tree', steps_count') →
  while_loop (S fuel) self tree steps_count
  = while_loop fuel self tree' steps_count'.
Proof.
  intros Hne Hg Hb. destruct tree; [done|]. simpl.
  rewrite bool_decide_true by done. by rewrite Hb.
Qed.

Lemma while_loop_guard_false fuel tree steps_count :
  ¬ steps_count < transition_limit self →
  while_loop fuel self tree steps_count
  = Some (Return NoPath, (tree, steps_count)).
Proof.
  intros Hg. destruct fuel, tree; simpl; try done;
    by rewrite bool_decide_false.
Qed.

(** The scan, written with the projections of the configuration. *)
Lemma scan_level_cons tree c rest next_level steps_count :
  scan_level self tree (c :: rest) next_level steps_count
  = if String.eqb (current_state c) (accept self) then
      ScanReturn (accept_and_halt tree steps_count) steps_count
    else if String.eqb (current_state c) (reject self) then
      scan_level self tree rest next_level steps_count
    else if bool_decide (steps_count + 1 > transition_limit self) then
      ScanReturn (Return (TransitionLimitExceeded (transition_limit self)))
        (steps_count + 1)
    else
      match default [] (rules self !! (current_state c, read_symbol (tape_right c))) with
      | [] =>
          scan_level self tree rest
            (next_level ++ [Config (tape_left c) (reject self) (tape_right c)])
            (steps_count + 1)
      | t :: ts =>
          scan_level self tree rest
            (next_level ++ map (apply_transition (tape_left c) (tape_right c)) (t :: ts))
            (steps_count + 1)
      end.
Proof.
  destruct c as [l q r]. simpl.
  by destruct (default [] (rules self !! (q, read_symbol r))).
Qed.

(** *** Invariants of the locals at the head of the loop *)

Lemma loop_step_deterministic st st1 st2 :
  loop_step self st st1 → loop_step self st st2 → st1 = st2.
Proof. intros (_ & _ & H1) (_ & _ & H2). congruence. Qed.

Lemma loop_step_increases st st' : loop_step self st st' → st.2 < st'.2.
Proof.
  destruct st as [t s], st' as [t' s']. intros (_ & _ & Hb). simpl in *.
  apply loop_body_continue in Hb as (? & ? & _ & _ & _ & _ & Hs & _). lia.
Qed.

Lemma loop_steps_monotone st st' : rtc (loop_step self) st st' → st.2 ≤ st'.2.
Proof.
  induction 1 as [|x y z Hxy _ IH]; [lia|].
  apply loop_step_increases in Hxy. lia.
Qed.

(** The loop is a single chain: locals reached from [x] lie before the
    locals at which the chain from [x] stops. *)
Lemma loop_steps_chain x y z :
  rtc (loop_step self) x y → rtc (loop_step self) x z → (∀ w, ¬ loop_step self z w) →
  rtc (loop_step self) y z.
Proof.
  intros Hxy. revert z. induction Hxy as [|x x' y Hstep _ IH]; intros z Hxz Hstop;
    [done|].
  inversion Hxz as [|? x'' ? Hstep' Hrest]; subst.
  - by apply Hstop in Hstep.
  - apply IH; [|done].
    by rewrite (loop_step_deterministic _ _ _ Hstep Hstep').
Qed.

(** After its first turn the loop only sees trees of two levels or more
    that are within the depth limit, and a positive counter within the
    transition limit. *)
Lemma reachable_inv input_data st :
  reachable self input_data st →
  st.1 ≠ [] ∧ 0 ≤ st.2
  ∧ (st = initial_locals self input_data
     ∨ (1 < Z.of_nat (length st.1) ≤ depth_limit self
        ∧ 0 < st.2 ≤ transition_limit self)).
Proof.
  unfold reachable. revert st. apply rtc_ind_r.
  - simpl. split; [done|]. split; [lia|]. by left.
  - intros [t s] [t' s'] _ Hstep IH.
    destruct Hstep as (Hne & Hg & Hb). simpl in *.
    destruct IH as (_ & Hs & _).
    apply loop_body_continue in Hb
      as (level & next_level & _ & _ & -> & _ & Hlt & Hd).
    rewrite length_app in *. simpl length in *.
    split; [by destruct t|]. split; [lia|]. right.
    assert (0 < length t)%nat by (destruct t; [done | simpl; lia]).
    lia.
Qed.

End Engine.

(** ** Runs *)

(** Every call of [execute] ends: the fuel of the model is never spent. *)
Lemma run_total self input_data max_depth max_steps :
  is_Some (run self input_data max_depth max_steps).
Proof.
  unfold run, execute. simpl. apply while_loop_total. simpl. lia.
Qed.

(** A run ends at locals its loop reached: by falling out of the loop guard
    with [NoPath], or by a halt inside the round begun there. *)
Lemma run_ends self input_data max_depth max_steps r st' :
  run self input_data max_depth max_steps = Some (r, st') →
  ∃ st, reachable (set_limits self max_depth max_steps) input_data st
    ∧ (∀ w, ¬ loop_step (set_limits self max_depth max_steps) st w)
    ∧ ((r = Return NoPath ∧ st' = st ∧ ¬ st.2 < max_steps)
       ∨ (st.1 ≠ [] ∧ st.2 < max_steps
          ∧ loop_body (set_limits self max_depth max_steps) st.1 st.2
            = Halt r st')).
Proof.
  unfold run, execute. simpl. intros H.
  apply while_loop_ends in H as (st & Hrtc & Hend).
  exists st. split; [exact Hrtc|].
  pose proof (reachable_inv _ _ _ Hrtc) as (Hne & _).
  destruct Hend as [(-> & -> & [Hnil|Hg])|(Hne' & Hg & Hb)]; [done | | ].
  - split; [|left; done]. intros w (_ & Hg' & _). done.
  - split; [|right; done]. intros w (_ & _ & Hb'). congruence.
Qed.

(** A run from a start state that is the accept state finds acceptance in
    its first round, at depth 0, and the report divides by that depth. *)
Lemma run_start_accept_raises self input_data max_depth max_steps :
  start self = accept self → 0 < max_steps →
  run self input_data max_depth max_steps
  = Some (Raise ZeroDivisionError, initial_locals self input_data).
Proof.
  intros Hacc Hpos. unfold run, execute. simpl.
  destruct (Z.to_nat max_steps) as [|fuel] eqn:Hfuel; [lia|].
  apply while_loop_halt; [done | simpl; lia |].
  unfold loop_body. simpl. rewrite <- Hacc, String.eqb_refl. reflexivity.
Qed.

(** That is the only way in which a call raises. *)
Lemma run_raises_only_at_depth_0 self input_data max_depth max_steps e st :
  run self input_data max_depth max_steps = Some (Raise e, st) →
  e = ZeroDivisionError ∧ start self = accept self ∧ 0 < max_steps
  ∧ st = initial_locals self input_data.
Proof.
  intros Hrun. pose proof Hrun as Hrun'.
  apply run_ends in Hrun'
    as ([t s] & Hreach & _ & [(Hr & _)|(Hne & Hg & Hb)]); [discriminate|].
  destruct st as [t' s']. simpl in *.
  apply loop_body_halt in Hb as [Hle Hspec]; [|done].
  apply reachable_inv in Hreach as (_ & Hs & Hinv). simpl in *.
  destruct e; [|done].
  destruct Hspec as (-> & Hlen & (level & Hlast & Hex) & Hlim).
  destruct Hinv as [[= -> ->]|[Hlen' _]]; [|lia].
  simpl in Hlast. injection Hlast as <-.
  apply Exists_cons in Hex as [Hex|Hex]; [|by apply Exists_nil in Hex].
  simpl in Hex.
  rewrite run_start_accept_raises in Hrun by (done || lia).
  injection Hrun as <-. done.
Qed.

(** ** The claims *)

(** C1 (the code departs from the claim).  The claim asks for a run that
    never raises and, when acceptance is found at depth 0, for a report that
    states the average as undefined.  On the machine whose start state is
    its accept state, [execute] finds acceptance in its first round and
    [print_accept_path] evaluates [num_configs/depth] with [depth = 0]: the
    call raises [ZeroDivisionError] instead of returning. *)
Theorem accept_at_depth_0_divides_by_zero :
  run trivial_tm "" 100 1000
  = Some (Raise ZeroDivisionError, initial_locals trivial_tm "").
Proof.
  apply run_start_accept_raises.
  - vm_compute. reflexivity.
  - lia.
Qed.

(** C10.  With [max_steps = 0] the loop guard [steps_count < 0] fails at
    once, so every machine on every input, the one whose start state is its
    accept state included, ends with the message of line 122 ([NoPath]) and
    with its locals untouched. *)
Theorem zero_transition_limit_is_no_path self input_data max_depth :
  run self input_data max_depth 0
  = Some (Return NoPath, initial_locals self input_data).
Proof.
  unfold run, execute. cbn [snd].
  apply while_loop_guard_false. simpl. lia.
Qed.

(** The simulation reads nothing else of the object. *)
Lemma scan_level_same_machine self1 self2 tree level next_level steps_count :
  same_machine self1 self2 →
  scan_level self1 tree level next_level steps_count
  = scan_level self2 tree level next_level steps_count.
Proof.
  intros (Hrules & Hacc & Hrej & _ & Hlim).
  revert next_level steps_count.
  induction level as [|[l q r] level IH]; intros next_level steps_count;
    [done|].
  simpl. rewrite Hrules, Hacc, Hrej, Hlim.
  destruct (String.eqb q (accept self2)); [done|].
  destruct (String.eqb q (reject self2)); [apply IH|].
  case_bool_decide; [done|].
  destruct (default [] (rules self2 !! (q, read_symbol r))); apply IH.
Qed.

Lemma loop_body_same_machine self1 self2 tree steps_count :
  same_machine self1 self2 →
  loop_body self1 tree steps_count = loop_body self2 tree steps_count.
Proof.
  intros Hsame. pose proof Hsame as (_ & _ & Hrej & Hdepth & _).
  unfold loop_body. destruct (last tree) as [level|]; [|done].
  rewrite (scan_level_same_machine self1 self2) by done.
  destruct (scan_level self2 tree level [] steps_count) as [r s|next_level s];
    [done|].
  unfold any_not_reject. by rewrite Hrej, Hdepth.
Qed.

Lemma while_loop_same_machine fuel self1 self2 tree steps_count :
  same_machine self1 self2 →
  while_loop fuel self1 tree steps_count
  = while_loop fuel self2 tree steps_count.
Proof.
  intros Hsame. pose proof Hsame as (_ & _ & _ & _ & Hlim).
  revert tree steps_count.
  induction fuel as [|fuel IH]; intros tree steps_count;
    destruct tree as [|level tree]; simpl; rewrite ?Hlim; [done|done|done|].
  case_bool_decide; [|done].
  rewrite (loop_body_same_machine self1 self2) by done.
  destruct (loop_body self2 (level :: tree) steps_count) as [r st|[t s]];
    [done | apply IH].
Qed.

(** C8.  How a call of [execute] ends is a function of the machine (rule
    table, start, accept and reject state) and of the arguments alone:
    two objects that hold the same machine end a call identically, whatever
    else they hold (the name, the state and symbol sets, the limits stored
    by earlier calls).  A call leaves the machine in the object untouched,
    so a second call with the same arguments on the object that the first
    call left behind ends exactly as the first did, and leaves the object
    as it found it. *)
Theorem execute_twice_same_outcome
    self other input_data max_depth max_steps :
  rules other = rules self →
  start other = start self →
  accept other = accept self →
  reject other = reject self →
  (execute other input_data max_depth max_steps).2
  = (execute self input_data max_depth max_steps).2
  ∧ (execute (execute self input_data max_depth max_steps).1
       input_data max_depth max_steps).2
    = (execute self input_data max_depth max_steps).2
  ∧ (execute (execute self input_data max_depth max_steps).1
       input_data max_depth max_steps).1
    = (execute self input_data max_depth max_steps).1
  ∧ rules (execute self input_data max_depth max_steps).1 = rules self
  ∧ start (execute self input_data max_depth max_steps).1 = start self
  ∧ accept (execute self input_data max_depth max_steps).1 = accept self
  ∧ reject (execute self input_data max_depth max_steps).1 = reject self.
Proof.
  intros Hrules Hstart Hacc Hrej.
  assert (∀ self1 self2,
            rules self1 = rules self2 → start self1 = start self2 →
            accept self1 = accept self2 → reject self1 = reject self2 →
            (execute self1 input_data max_depth max_steps).2
            = (execute self2 input_data max_depth max_steps).2) as Hsame.
  { intros self1 self2 H1 H2 H3 H4. unfold execute. cbn [snd].
    change (start (set_limits self1 max_depth max_steps)) with (start self1).
    change (start (set_limits self2 max_depth max_steps)) with (start self2).
    rewrite H2. apply while_loop_same_machine.
    unfold same_machine. simpl. by rewrite H1, H3, H4. }
  split; [by apply Hsame|].
  split; [by apply Hsame|].
  done.
Qed.

Lemma execute_twice_same_outcome_witness :
  (execute renamed_race_tm "a" 100 1000).2
  = (execute race_loop_first "a" 100 1000).2.
Proof.
  exact (proj1 (execute_twice_same_outcome race_loop_first renamed_race_tm
                  "a" 100 1000 eq_refl eq_refl eq_refl eq_refl)).
Defined.

(** C3.  Whatever the machine, the input and the limits, a depth reported
    by the outcome of a run is at most [max_depth]: [Accepted] and
    [Rejected] report [len(config_tree) - 1] of a tree that passed the
    depth test, and [DepthLimitExceeded] reports [max_depth] itself. *)
Theorem reported_depth_within_max_depth
    self input_data max_depth max_steps o st d :
  run self input_data max_depth max_steps = Some (Return o, st) →
  reported_depth o = Some d →
  d ≤ max_depth.
Proof.
  intros Hrun Hd.
  apply run_ends in Hrun
    as ([t s] & Hreach & _ & [(Hr & _)|(Hne & Hg & Hb)]).
  { injection Hr as ->. discriminate Hd. }
  destruct st as [t' s']. simpl in *.
  apply loop_body_halt in Hb as [_ Hspec]; [|done].
  apply reachable_inv in Hreach as (_ & _ & Hinv). simpl in *.
  destruct o as [n d' rep|n d'|n d'|n|]; simpl in Hd, Hspec;
    try discriminate Hd; injection Hd as ->.
  - destruct Hspec as (_ & _ & -> & Hpos & _).
    destruct Hinv as [[= -> ->]|[Hlen _]]; [simpl in Hpos; lia | lia].
  - destruct Hspec as (_ & -> & Hlen & _). lia.
  - destruct Hspec as (_ & -> & _). lia.
Qed.

Lemma reported_depth_within_max_depth_witness :
  run looping_tm "a" 5 1000
  = Some (Return (DepthLimitExceeded 5 5),
          ([[Config "" "q0" "a"]; [Config "a" "q0" "_"];
            [Config "aa" "q0" "_"]; [Config "aaa" "q0" "_"];
            [Config "aaaa" "q0" "_"]; [Config "aaaaa" "q0" "_"]], 5))
  ∧ 5 ≤ 5.
Proof.
  assert (run looping_tm "a" 5 1000
          = Some (Return (DepthLimitExceeded 5 5),
                  ([[Config "" "q0" "a"]; [Config "a" "q0" "_"];
                    [Config "aa" "q0" "_"]; [Config "aaa" "q0" "_"];
                    [Config "aaaa" "q0" "_"]; [Config "aaaaa" "q0" "_"]], 5)))
    as Hrun by (vm_compute; reflexivity).
  split; [exact Hrun|].
  exact (reported_depth_within_max_depth looping_tm "a" 5 1000 _ _ 5
           Hrun eq_refl).
Defined.

(** C2 (counterexample to the claim as stated).  With [max_depth = 1] the
    looping machine halts with [DepthLimitExceeded] while its tree holds
    two levels, which is [max_depth + 1] and does not exceed it. *)
Lemma depth_limit_halt_with_max_depth_plus_1_levels :
  ∃ tree, run looping_tm "a" 1 1000
          = Some (Return (DepthLimitExceeded 1 1), (tree, 1))
    ∧ Z.of_nat (length tree) = 1 + 1
    ∧ ¬ (Z.of_nat (length tree) > 1 + 1).
Proof.
  exists [[Config "" "q0" "a"]; [Config "a" "q0" "_"]].
  split; [vm_compute; reflexivity|]. simpl. lia.
Qed.

(** C2 (amended).  In every round of every run, once the level scan has
    completed, the engine halts with [DepthLimitExceeded] exactly when the
    tree, after the append step, holds more than [max_depth] levels (the
    test of line 111 is [len(config_tree) > max_depth], not
    [max_depth + 1]).  Read off the way a round ends: a
    [DepthLimitExceeded] halt leaves more than [max_depth] levels, and
    exactly [max_depth + 1] when [max_depth ≥ 1]; a round that continues or
    halts [Rejected] leaves at most [max_depth] levels. *)
Theorem depth_limit_halt_iff_tree_exceeds_max_depth
    self input_data max_depth max_steps st :
  reachable (set_limits self max_depth max_steps) input_data st →
  st.2 < max_steps →
  depth_test_spec max_depth st
    (loop_body (set_limits self max_depth max_steps) st.1 st.2)
  ∧ ∀ level next_level n,
      last st.1 = Some level →
      scan_level (set_limits self max_depth max_steps) st.1 level [] st.2
        = ScanDone next_level n →
      (loop_body (set_limits self max_depth max_steps) st.1 st.2
       = Halt (Return (DepthLimitExceeded n max_depth))
           (append_level st.1 next_level, n)
       ↔ max_depth < Z.of_nat (length (append_level st.1 next_level))).
Proof.
  intros Hreach Hg.
  apply reachable_inv in Hreach as (Hne & _ & Hinv).
  destruct st as [t s]. simpl in *. split.
  - destruct (loop_body (set_limits self max_depth max_steps) t s)
      as [r [t' s']|[t' s']] eqn:Hb.
    + apply loop_body_halt in Hb as [_ Hspec]; [|done].
      destruct r as [[n d rep|n d|n d|n|]|[|]]; simpl in *.
      * by destruct Hspec as (-> & _).
      * by destruct Hspec as (_ & _ & Hlen & _).
      * destruct Hspec as (-> & -> & Hlt & Hlen & _).
        repeat split; [done|].
        intros Hmax. destruct Hinv as [[= -> ->]|[Hlen' _]];
          simpl length in *; lia.
      * by destruct Hspec as (-> & _).
      * done.
      * by destruct Hspec as (-> & _).
      * done.
    + apply loop_body_continue in Hb as (_ & _ & _ & _ & _ & _ & _ & Hd).
      simpl in *. done.
  - intros level next_level n Hlast Hscan.
    unfold loop_body. rewrite Hlast, Hscan. simpl depth_limit.
    case_bool_decide as Hdepth.
    + split; [lia | done].
    + split; [|lia].
      destruct (negb (any_not_reject _ next_level)); discriminate.
Qed.

Lemma depth_limit_halt_iff_tree_exceeds_max_depth_witness :
  0 < 1000
  ∧ depth_test_spec 1 (initial_locals looping_tm "a")
      (Halt (Return (DepthLimitExceeded 1 1))
         ([[Config "" "q0" "a"]; [Config "a" "q0" "_"]], 1)).
Proof.
  split; [lia|].
  exact (proj1 (depth_limit_halt_iff_tree_exceeds_max_depth looping_tm "a"
                  1 1000 (initial_locals looping_tm "a")
                  (rtc_refl _ _) eq_refl)).
Defined.

(** C4 (counterexample to the claim as stated).  With [max_steps = 2] the
    forking machine examines three configurations: the third increment
    (line 67) takes [steps_count] to [3], above the limit, and only then
    does the test of line 69 stop the run. *)
Lemma transitions_consumed_exceeds_max_transitions :
  ∃ tree, run forking_tm "a" 100 2
          = Some (Return (TransitionLimitExceeded 2), (tree, 3))
    ∧ 3 > 2.
Proof.
  exists [[Config "" "q0" "a"]; [Config "a" "q0" "_"; Config "" "q0" "_a"]].
  split; [vm_compute; reflexivity | lia].
Qed.

(** C4 (amended).  For [max_steps ≥ 0], throughout a run the counter
    [steps_count] never decreases: it is non-negative and at most
    [max_steps] at the head of every turn of the loop, each turn that
    continues adds one for each configuration of the current level that is
    neither accepting nor rejecting, and the run ends with a counter no
    smaller than any before.  The counter ends at most one above
    [max_steps], and above [max_steps] only in the halt
    [TransitionLimitExceeded], whose message reports [max_steps] itself;
    every transition count reported by an outcome is at most [max_steps]. *)
Theorem transitions_consumed_monotone_and_bounded
    self input_data max_depth max_steps st1 st2 r st_end :
  0 ≤ max_steps →
  reachable (set_limits self max_depth max_steps) input_data st1 →
  rtc (loop_step (set_limits self max_depth max_steps)) st1 st2 →
  run self input_data max_depth max_steps = Some (r, st_end) →
  0 ≤ st1.2 ≤ st2.2
  ∧ st2.2 ≤ max_steps
  ∧ st2.2 ≤ st_end.2 ≤ max_steps + 1
  ∧ (max_steps < st_end.2 → r = Return (TransitionLimitExceeded max_steps))
  ∧ (∀ o n, r = Return o → reported_transitions o = Some n → n ≤ max_steps)
  ∧ (∀ st', loop_step (set_limits self max_depth max_steps) st1 st' →
       ∃ level, last st1.1 = Some level
         ∧ st'.2 = st1.2
                   + examined (set_limits self max_depth max_steps) level).
Proof.
  intros Hmax Hreach1 Hrtc Hrun.
  apply run_ends in Hrun as (st & Hreach & Hstop & Hend).
  set (self' := set_limits self max_depth max_steps) in *.
  assert (reachable self' input_data st2) as Hreach2
    by exact (rtc_trans _ _ _ Hreach1 Hrtc).
  pose proof (loop_steps_monotone _ _ _ Hrtc) as Hmono.
  pose proof (reachable_inv _ _ _ Hreach1) as (_ & Hs1 & _).
  assert (∀ st, reachable self' input_data st → st.2 ≤ max_steps) as Hbound.
  { intros st0 Hst. apply reachable_inv in Hst as (_ & _ & [->|[_ Hs0]]);
      simpl in *; lia. }
  pose proof (Hbound _ Hreach2) as Hs2.
  pose proof (loop_steps_chain _ _ _ _ Hreach2 Hreach Hstop) as Hchain.
  apply loop_steps_monotone in Hchain.
  pose proof (Hbound _ Hreach) as Hs.
  assert (∀ st', loop_step self' st1 st' →
            ∃ level, last st1.1 = Some level
              ∧ st'.2 = st1.2 + examined self' level) as Hcount.
  { intros [t' s'] (_ & _ & Hb). destruct st1 as [t1 s1]. simpl in *.
    apply loop_body_continue in Hb as (level & ? & Hlast & _ & _ & Hs' & _).
    by exists level. }
  destruct Hend as [(-> & -> & _)|(Hne & Hg & Hb)].
  { repeat split; try lia; [|done]. intros o n [= <-]. discriminate. }
  destruct st as [t s], st_end as [t' s']. simpl in *.
  apply loop_body_halt in Hb as [Hle Hspec]; [|done].
  destruct r as [[n d rep|n d|n d|n|]|[|]]; simpl in Hspec; try done.
  - destruct Hspec as (_ & -> & _ & _ & Hlim).
    assert (s' ≤ max_steps) by (destruct (decide (s < s')); [auto | lia]).
    repeat split; try lia; [|done]. intros o n' [= <-] [= <-]. done.
  - destruct Hspec as (-> & _ & _ & _ & Hlim).
    assert (s' ≤ max_steps) by (destruct (decide (s < s')); [auto | lia]).
    repeat split; try lia; [|done]. intros o n' [= <-] [= <-]. done.
  - destruct Hspec as (-> & _ & _ & _ & Hlim).
    assert (s' ≤ max_steps) by (destruct (decide (s < s')); [auto | lia]).
    repeat split; try lia; [|done]. intros o n' [= <-] [= <-]. done.
  - destruct Hspec as (_ & -> & Hlt & Heq). simpl in *.
    specialize (Heq Hs).
    repeat split; try lia; [|done].
    intros o n' [= <-] [= <-]. lia.
  - destruct Hspec as (_ & _ & _ & Hlim).
    assert (s' ≤ max_steps) by (destruct (decide (s < s')); [auto | lia]).
    repeat split; try lia; [|done]. intros o n' [=].
Qed.

Lemma transitions_consumed_monotone_and_bounded_witness :
  0 ≤ 2
  ∧ run forking_tm "a" 100 2
    = Some (Return (TransitionLimitExceeded 2),
            ([[Config "" "q0" "a"];
              [Config "a" "q0" "_"; Config "" "q0" "_a"]], 3))
  ∧ (0 ≤ 0 ≤ 1 ∧ 1 ≤ 2 ∧ 1 ≤ 3 ≤ 2 + 1).
Proof.
  assert (run forking_tm "a" 100 2
          = Some (Return (TransitionLimitExceeded 2),
                  ([[Config "" "q0" "a"];
                    [Config "a" "q0" "_"; Config "" "q0" "_a"]], 3)))
    as Hrun by (vm_compute; reflexivity).
  assert (loop_step (set_limits forking_tm 100 2)
            (initial_locals forking_tm "a")
            ([[Config "" "q0" "a"];
              [Config "a" "q0" "_"; Config "" "q0" "_a"]], 1)) as Hstep.
  { split; [discriminate|]. split; [reflexivity|]. vm_compute. reflexivity. }
  split; [discriminate|]. split; [exact Hrun|].
  destruct (transitions_consumed_monotone_and_bounded forking_tm "a" 100 2
              (initial_locals forking_tm "a") _ _ _
              ltac:(discriminate) (rtc_refl _ _) (rtc_once _ _ Hstep) Hrun)
    as (H1 & H2 & H3 & _).
  exact (conj H1 (conj H2 H3)).
Defined.

(** ** Expanding one configuration *)

Lemma successors_nonempty self c : successors self c ≠ [].
Proof.
  unfold successors.
  by destruct (default [] (rules self !! (current_state c, read_symbol (tape_right c)))).
Qed.

Lemma scan_level_expand self tree c rest next_level steps_count :
  current_state c ≠ accept self →
  current_state c ≠ reject self →
  steps_count + 1 ≤ transition_limit self →
  scan_level self tree (c :: rest) next_level steps_count
  = scan_level self tree rest (next_level ++ successors self c) (steps_count + 1).
Proof.
  intros Hacc Hrej Hlim. rewrite scan_level_cons.
  apply String.eqb_neq in Hacc, Hrej. rewrite Hacc, Hrej.
  rewrite bool_decide_false by lia. unfold successors.
  by destruct (default [] (rules self !! (current_state c, read_symbol (tape_right c)))).
Qed.

Lemma scan_level_skip self tree c rest next_level steps_count :
  current_state c ≠ accept self →
  current_state c = reject self →
  scan_level self tree (c :: rest) next_level steps_count
  = scan_level self tree rest next_level steps_count.
Proof.
  intros Hacc Hrej. rewrite scan_level_cons.
  apply String.eqb_neq in Hacc. apply String.eqb_eq in Hrej.
  by rewrite Hacc, Hrej.
Qed.

Lemma scan_level_accept self tree c rest next_level steps_count :
  current_state c = accept self →
  scan_level self tree (c :: rest) next_level steps_count
  = ScanReturn (accept_and_halt tree steps_count) steps_count.
Proof.
  intros Hacc. rewrite scan_level_cons.
  apply String.eqb_eq in Hacc. by rewrite Hacc.
Qed.

(** C5 (counterexample to the claim as stated).  Negative limits are not
    refused: with [max_depth = -1] the stuck machine runs one round and
    returns [DepthLimitExceeded], and with [max_steps = -1] it returns
    [NoPath]. *)
Lemma negative_limits_produce_an_outcome :
  run stuck_tm "" (-1) 10
  = Some (Return (DepthLimitExceeded 1 (-1)),
          ([[Config "" "q0" ""]; [Config "" "qrej" ""]], 1))
  ∧ run stuck_tm "" 10 (-1)
    = Some (Return NoPath, ([[Config "" "q0" ""]], 0)).
Proof. split; vm_compute; reflexivity. Qed.

(** C5 (amended).  [execute] has no test on its limits, and a call with a
    negative limit returns an outcome: [NoPath], without a single round,
    when [max_steps ≤ 0]; otherwise ([max_depth < 0 < max_steps], start
    state other than the accept state) [DepthLimitExceeded] after the first
    round, reporting depth [max_depth] and the zero or one transitions
    counted so far. *)
Theorem negative_limits_are_not_refused self input_data max_depth max_steps :
  max_depth < 0 ∨ max_steps < 0 →
  start self ≠ accept self ∨ max_steps ≤ 0 →
  ∃ st,
    run self input_data max_depth max_steps
    = Some (Return (if bool_decide (0 < max_steps)
                    then DepthLimitExceeded st.2 max_depth
                    else NoPath), st)
    ∧ 0 ≤ st.2 ≤ 1.
Proof.
  intros Hneg Hstart. unfold run, execute. simpl.
  case_bool_decide as Hpos.
  - assert (max_depth < 0) as Hd by lia.
    assert (start self ≠ accept self) as Hacc by (destruct Hstart; [done|lia]).
    destruct (Z.to_nat max_steps) as [|fuel] eqn:Hfuel; [lia|].
    set (self' := set_limits self max_depth max_steps).
    set (c0 := Config "" (start self) input_data).
    destruct (decide (start self = reject self)) as [Hrej|Hrej].
    + exists ([[c0]], 0). split; [|simpl; lia].
      apply while_loop_halt; [done | simpl; lia |].
      unfold loop_body. simpl last. cbv beta iota.
      rewrite scan_level_skip by done. simpl.
      by rewrite bool_decide_true by lia.
    + exists ([[c0]; successors self' c0], 1). split; [|simpl; lia].
      apply while_loop_halt; [done | simpl; lia |].
      unfold loop_body. simpl last. cbv beta iota.
      rewrite scan_level_expand by (done || simpl; lia). simpl scan_level.
      pose proof (successors_nonempty self' c0) as Hne.
      destruct (successors self' c0) as [|c1 cs] eqn:Hsucc; [done|].
      simpl app. rewrite bool_decide_true by (simpl; lia). done.
  - exists ([[Config "" (start self) input_data]], 0). split; [|simpl; lia].
    by apply while_loop_guard_false.
Qed.

Lemma negative_limits_are_not_refused_witness :
  (-1 < 0 ∨ 10 < 0)
  ∧ ∃ st, run stuck_tm "" (-1) 10
          = Some (Return (if bool_decide (0 < 10)
                          then DepthLimitExceeded st.2 (-1)
                          else NoPath), st)
          ∧ 0 ≤ st.2 ≤ 1.
Proof.
  split; [left; reflexivity|].
  apply (negative_limits_are_not_refused stuck_tm "" (-1) 10).
  - left. reflexivity.
  - left. vm_compute. discriminate.
Defined.

(** ** Tapes *)

Lemma append_eq_empty (s1 s2 : string) :
  String.append s1 s2 = "" → s1 = "" ∧ s2 = "".
Proof. destruct s1; simpl; [done | discriminate]. Qed.

(** A join is empty only if every piece is. *)
Lemma join_eq_empty (l : list string) : join l = "" → Forall (λ x, x = "") l.
Proof.
  induction l as [|x [|y l] IH]; intros H.
  - constructor.
  - constructor; [exact H | constructor].
  - change (String.append x (join (y :: l)) = "") in H.
    apply append_eq_empty in H as [-> H]. constructor; [done | by apply IH].
Qed.

(** [list(s)] holds one-character strings. *)
Lemma chars_nonempty_pieces (s : string) : Forall (λ x, x ≠ "") (chars s).
Proof. induction s as [|c s IH]; simpl; constructor; done. Qed.

(** After the write, the head cell holds [write_symbol] and the cells
    behind it are those of [tape_right]. *)
Lemma write_head_cons (r : string) (write_symbol : string) :
  write_head (chars r) write_symbol = write_symbol :: tail (chars r).
Proof. by destruct (chars r). Qed.

Lemma apply_transition_state l r next_state write_symbol move_dir :
  current_state (apply_transition l r (next_state, write_symbol, move_dir))
  = next_state.
Proof.
  unfold apply_transition.
  by destruct (move_head (chars l) (write_head (chars r) write_symbol) move_dir).
Qed.

(** C9 (counterexample to the claim as stated).  The loader stores the
    cells of a rule row unchecked (lines 35-36).  The row
    [q0,_,q0,,S], with an empty write cell and a direction that is neither
    [L] nor [R], is applied to the initial configuration on the empty
    input and produces at level 1 the configuration [("", q0, "")], whose
    right tape is empty. *)
Lemma transition_rule_can_leave_right_tape_empty :
  rules empty_write_tm !! ("q0", "_") = Some [("q0", "", "S")]
  ∧ run empty_write_tm "" 1 10
    = Some (Return (DepthLimitExceeded 1 1),
            ([[Config "" "q0" ""]; [apply_transition "" "" ("q0", "", "S")]],
             1))
  ∧ tape_right (apply_transition "" "" ("q0", "", "S")) = "".
Proof. repeat split; vm_compute; reflexivity. Qed.

(** C9 (amended).  A configuration produced by applying a rule whose write
    symbol is not the empty string, or whose direction is ["L"] or ["R"],
    has a non-empty right tape.  The write leaves a non-empty list of
    cells; a move to the left puts one more character in front of it; a
    move to the right takes the head cell away and, when nothing is left,
    puts a blank. *)
Theorem transition_right_tape_nonempty l r next_state write_symbol move_dir :
  write_symbol ≠ "" ∨ move_dir = "L" ∨ move_dir = "R" →
  tape_right (apply_transition l r (next_state, write_symbol, move_dir)) ≠ ""
  ∧ write_head (chars r) write_symbol ≠ []
  ∧ (move_dir = "L" →
     ∃ c, c ≠ ""
       ∧ (move_head (chars l) (write_head (chars r) write_symbol) move_dir).2
         = c :: write_head (chars r) write_symbol)
  ∧ (move_dir = "R" →
     (move_head (chars l) (write_head (chars r) write_symbol) move_dir).2
     = match tail (chars r) with [] => ["_"] | rest => rest end).
Proof.
  intros Hwf.
  assert (∃ c, c ≠ ""
            ∧ (move_head (chars l) (write_head (chars r) write_symbol) "L").2
              = c :: write_head (chars r) write_symbol) as HL.
  { unfold move_head, pop_last. simpl String.eqb.
    destruct (last (chars l)) as [c|] eqn:Hlast.
    - exists c. split; [|done].
      apply last_Some_elem_of in Hlast.
      pose proof (chars_nonempty_pieces l) as Hall.
      by apply (proj1 (Forall_forall _ _) Hall) in Hlast.
    - exists "_". split; [discriminate | done]. }
  assert ((move_head (chars l) (write_head (chars r) write_symbol) "R").2
          = match tail (chars r) with [] => ["_"] | rest => rest end) as HR.
  { unfold move_head. simpl String.eqb. rewrite write_head_cons.
    by destruct (tail (chars r)). }
  split; [|split; [|split]].
  - unfold apply_transition.
    destruct (move_head (chars l) (write_head (chars r) write_symbol) move_dir)
      as [new_left new_right] eqn:Hmove.
    simpl. intros Hjoin. apply join_eq_empty in Hjoin.
    destruct (String.eqb_spec move_dir "L") as [->|HnL].
    { destruct HL as (c & Hc & Heq). rewrite Hmove in Heq. simpl in Heq.
      subst new_right. by inversion Hjoin. }
    destruct (String.eqb_spec move_dir "R") as [->|HnR].
    { rewrite Hmove in HR. simpl in HR. subst new_right.
      pose proof (chars_nonempty_pieces r) as Hall.
      destruct (chars r) as [|c0 [|c1 rest]]; simpl in Hjoin;
        [by inversion Hjoin | by inversion Hjoin |].
      inversion Hall as [|? ? _ Hall']; subst.
      inversion Hall' as [|? ? Hc1 _]; subst.
      by inversion Hjoin. }
    destruct Hwf as [Hw|[->| ->]]; [|done|done].
    unfold move_head in Hmove.
    apply String.eqb_neq in HnL, HnR. rewrite HnL, HnR in Hmove.
    injection Hmove as <- <-. rewrite write_head_cons in Hjoin.
    by inversion Hjoin.
  - rewrite write_head_cons. done.
  - intros ->. exact HL.
  - intros ->. exact HR.
Qed.

Lemma transition_right_tape_nonempty_witness :
  ("a" ≠ "" ∨ "R" = "L" ∨ "R" = "R")
  ∧ tape_right (apply_transition "" "a" ("q0", "a", "R")) ≠ "".
Proof.
  split; [left; discriminate|].
  apply (transition_right_tape_nonempty "" "a" "q0" "a" "R").
  left. discriminate.
Defined.

(** The hypothesis of the theorem is needed: a row with an empty write cell
    and a direction that is neither ["L"] nor ["R"] leaves an empty right
    tape on the empty tape. *)
Remark malformed_rule_can_empty_right_tape :
  tape_right (apply_transition "" "" ("q0", "", "S")) = "".
Proof. reflexivity. Qed.

(** ** Scenarios *)

(** C6.  A machine stuck in its start state (a state other than the accept
    and the reject state, with no rule for it on the blank), run on the
    empty input with room for two levels and one transition, puts at
    depth 1 the single synthesized configuration in the reject state, on
    the unchanged tape, and halts [Rejected] at depth 1 with one transition
    consumed. *)
Theorem stuck_machine_rejected_at_depth_1 self max_depth max_steps :
  start self ≠ accept self →
  start self ≠ reject self →
  default [] (rules self !! (start self, "_")) = [] →
  2 ≤ max_depth → 1 ≤ max_steps →
  run self "" max_depth max_steps
  = Some (Return (Rejected 1 1),
          ([[Config "" (start self) ""]; [Config "" (reject self) ""]], 1)).
Proof.
  intros Hacc Hrej Hrule Hd Hs. unfold run, execute. simpl.
  destruct (Z.to_nat max_steps) as [|fuel] eqn:Hfuel; [lia|].
  apply while_loop_halt; [done | simpl; lia |].
  unfold loop_body. simpl last. cbv beta iota.
  rewrite scan_level_expand by (simpl; done || lia).
  unfold successors. simpl. rewrite Hrule. simpl.
  rewrite bool_decide_false by lia.
  unfold any_not_reject. simpl. rewrite String.eqb_refl. done.
Qed.

Lemma stuck_machine_rejected_at_depth_1_witness :
  run stuck_tm "" 100 1000
  = Some (Return (Rejected 1 1),
          ([[Config "" "q0" ""]; [Config "" "qrej" ""]], 1)).
Proof.
  apply (stuck_machine_rejected_at_depth_1 stuck_tm 100 1000).
  - vm_compute. discriminate.
  - vm_compute. discriminate.
  - vm_compute. reflexivity.
  - discriminate.
  - discriminate.
Defined.

(** C7.  Two rules for [(start, "a")], one into the accept state and one
    back into the start state, in either order: on input ["a"], with room
    for two levels and two transitions, the run returns [Accepted] at
    depth 1.  The accepting configuration of level 1 halts the run when
    that level is scanned; when the looping rule comes first, its
    configuration is expanded before the accepting one is met, and the run
    has consumed two transitions instead of one. *)
Theorem branching_race_accepted_at_depth_1
    self w1 d1 w2 d2 max_depth max_steps :
  start self ≠ accept self →
  start self ≠ reject self →
  rules self !! (start self, "a")
    = Some [(accept self, w1, d1); (start self, w2, d2)]
  ∨ rules self !! (start self, "a")
    = Some [(start self, w2, d2); (accept self, w1, d1)] →
  2 ≤ max_depth → 2 ≤ max_steps →
  ∃ n rep tree,
    run self "a" max_depth max_steps
    = Some (Return (Accepted n 1 rep), (tree, n))
    ∧ length tree = 2%nat
    ∧ (n = 1 ∨ n = 2).
Proof.
  intros Hacc Hrej Hrules Hd Hs. unfold run, execute. simpl.
  destruct (Z.to_nat max_steps) as [|[|fuel]] eqn:Hfuel; [lia | lia |].
  set (self' := set_limits self max_depth max_steps).
  set (c0 := Config "" (start self) "a").
  set (level1 := successors self' c0).
  assert (∃ cA cL, current_state cA = accept self
            ∧ current_state cL = start self
            ∧ (level1 = [cA; cL] ∨ level1 = [cL; cA])) as (cA & cL & HA & HL & Hl1).
  { exists (apply_transition "" "a" (accept self, w1, d1)),
           (apply_transition "" "a" (start self, w2, d2)).
    rewrite !apply_transition_state. split; [done|]. split; [done|].
    unfold level1, successors. simpl.
    destruct Hrules as [-> | ->]; simpl; auto. }
  assert (loop_body self' [[c0]] 0 = Continue ([[c0]; level1], 1)) as Hround1.
  { unfold loop_body. simpl last. cbv beta iota.
    rewrite scan_level_expand by (simpl; done || lia).
    simpl scan_level. simpl app. fold level1. cbv beta iota.
    assert (any_not_reject self' level1 = true) as ->.
    { unfold any_not_reject. apply existsb_exists. exists cL.
      split; [destruct Hl1 as [-> | ->]; simpl; auto|].
      rewrite HL. simpl. apply String.eqb_neq in Hrej. by rewrite Hrej. }
    destruct level1 as [|c1 cs] eqn:Hlevel1;
      [by destruct Hl1 as [Hl1|Hl1]|].
    rewrite bool_decide_false by (simpl; lia). reflexivity. }
  rewrite (while_loop_continue self' (S fuel) [[c0]] 0 [[c0]; level1] 1)
    by (done || simpl; lia).
  assert ([[c0]; level1] ≠ []) as Hne by done.
  destruct (accept_and_halt_cases [[c0]; level1] 1 Hne)
    as [[Hlen _]|[_ [rep1 Hrep1]]]; [simpl in Hlen; lia|].
  destruct (accept_and_halt_cases [[c0]; level1] 2 Hne)
    as [[Hlen _]|[_ [rep2 Hrep2]]]; [simpl in Hlen; lia|].
  simpl length in Hrep1, Hrep2.
  destruct Hl1 as [Hl1|Hl1].
  - exists 1, rep1, [[c0]; level1]. split; [|split; [done | by left]].
    apply while_loop_halt; [done | simpl; lia |].
    unfold loop_body. simpl last. cbv beta iota.
    rewrite Hl1 at 2. rewrite scan_level_accept by done.
    by rewrite Hrep1.
  - exists 2, rep2, [[c0]; level1]. split; [|split; [done | by right]].
    apply while_loop_halt; [done | simpl; lia |].
    unfold loop_body. simpl last. cbv beta iota.
    rewrite Hl1 at 2.
    rewrite scan_level_expand by (rewrite ?HL; simpl; done || lia).
    rewrite scan_level_accept by done. change (1 + 1) with 2.
    by rewrite Hrep2.
Qed.

Lemma branching_race_accepted_at_depth_1_witness :
  (∃ n rep tree,
     run race_accept_first "a" 100 1000
     = Some (Return (Accepted n 1 rep), (tree, n))
     ∧ length tree = 2%nat ∧ (n = 1 ∨ n = 2))
  ∧ (∃ n rep tree,
       run race_loop_first "a" 100 1000
       = Some (Return (Accepted n 1 rep), (tree, n))
       ∧ length tree = 2%nat ∧ (n = 1 ∨ n = 2)).
Proof.
  split.
  - apply (branching_race_accepted_at_depth_1 race_accept_first
             "a" "R" "a" "R" 100 1000).
    + vm_compute. discriminate.
    + vm_compute. discriminate.
    + left. vm_compute. reflexivity.
    + discriminate.
    + discriminate.
  - apply (branching_race_accepted_at_depth_1 race_loop_first
             "a" "R" "a" "R" 100 1000).
    + vm_compute. discriminate.
    + vm_compute. discriminate.
    + right. vm_compute. reflexivity.
    + discriminate.
    + discriminate.
Defined.

(** * Further properties of the code *)

(** ** Strings and cells *)

Lemma string_app_cons c (s1 s2 : string) :
  String c s1 +:+ s2 = String c (s1 +:+ s2).
Proof. reflexivity. Qed.

Lemma string_app_empty_r (s : string) : s +:+ "" = s.
Proof.
  induction s as [|c s IH]; [done|]. by rewrite string_app_cons, IH.
Qed.

Lemma string_app_assoc (s1 s2 s3 : string) :
  (s1 +:+ s2) +:+ s3 = s1 +:+ (s2 +:+ s3).
Proof.
  induction s1 as [|c s1 IH]; [done|]. by rewrite !string_app_cons, IH.
Qed.

Lemma join_cons (x : string) (l : list string) : join (x :: l) = x +:+ join l.
Proof.
  destruct l as [|y l]; [|done].
  unfold join. simpl. by rewrite string_app_empty_r.
Qed.

Lemma join_app (l1 l2 : list string) : join (l1 ++ l2) = join l1 +:+ join l2.
Proof.
  induction l1 as [|x l1 IH]; [done|].
  change ((x :: l1) ++ l2) with (x :: (l1 ++ l2)).
  by rewrite !join_cons, IH, string_app_assoc.
Qed.

Lemma chars_app (s1 s2 : string) : chars (s1 +:+ s2) = chars s1 ++ chars s2.
Proof.
  induction s1 as [|c s1 IH]; [done|].
  rewrite string_app_cons. simpl. by rewrite IH.
Qed.

Lemma join_chars_core (s : string) : join (chars s) = s.
Proof.
  induction s as [|c s IH]; [done|].
  simpl chars. by rewrite join_cons, IH.
Qed.

(** X1.  Taking a string apart into its characters and joining them gives
    the string back, so a tape passes through a transition unharmed apart
    from the cell written. *)
Theorem join_chars (s : string) : join (chars s) = s.
Proof.
  induction s as [|c s IH]; [done|].
  simpl chars. by rewrite join_cons, IH.
Qed.

Lemma chars_behind_head (r : string) : tail (chars r) = chars (behind_head r).
Proof. by destruct r. Qed.

(** X2.  A move to the right, on strings: the written symbol goes to the end
    of the left tape, and the right tape is what was behind the head, or a
    single blank when nothing was. *)
Theorem apply_transition_right l r next_state write_symbol :
  apply_transition l r (next_state, write_symbol, "R")
  = Config (l +:+ write_symbol) next_state
      (match behind_head r with
       | EmptyString => "_"
       | String _ _ => behind_head r
       end).
Proof.
  unfold apply_transition, move_head. simpl String.eqb.
  rewrite write_head_cons, chars_behind_head.
  destruct (behind_head r) as [|c r'] eqn:Hr.
  - simpl. by rewrite join_app, join_chars_core.
  - change (chars (String c r')) with (String c "" :: chars r').
    cbv beta iota. rewrite join_app, join_chars_core.
    change (String c "" :: chars r') with (chars (String c r')).
    by rewrite join_chars_core.
Qed.

(** X3.  A move to the left, on strings: the last character of the left
    tape comes off and goes in front of the written symbol; at the left end
    of the tape a blank comes in instead. *)
Theorem apply_transition_left l r next_state write_symbol :
  apply_transition "" r (next_state, write_symbol, "L")
  = Config "" next_state ("_" +:+ write_symbol +:+ behind_head r)
  ∧ ∀ c, apply_transition (l +:+ String c "") r (next_state, write_symbol, "L")
         = Config l next_state (String c (write_symbol +:+ behind_head r)).
Proof.
  split.
  - unfold apply_transition, move_head, pop_last. simpl String.eqb. simpl.
    rewrite write_head_cons, chars_behind_head.
    by rewrite !join_cons, join_chars_core.
  - intros c. unfold apply_transition, move_head, pop_last. simpl String.eqb.
    rewrite chars_app. simpl chars.
    rewrite last_snoc, removelast_last.
    rewrite write_head_cons, chars_behind_head.
    by rewrite !join_cons, !join_chars_core.
Qed.

(** X4.  Any other direction leaves the head where it is: only the head
    cell changes. *)
Theorem apply_transition_stay l r next_state write_symbol move_dir :
  move_dir ≠ "L" → move_dir ≠ "R" →
  apply_transition l r (next_state, write_symbol, move_dir)
  = Config l next_state (write_symbol +:+ behind_head r).
Proof.
  intros HL HR. unfold apply_transition, move_head.
  apply String.eqb_neq in HL, HR. rewrite HL, HR.
  rewrite write_head_cons, chars_behind_head.
  by rewrite join_cons, !join_chars_core.
Qed.

Lemma apply_transition_stay_witness :
  apply_transition "ab" "cd" ("q", "x", "S") = Config "ab" "q" "xd".
Proof.
  apply (apply_transition_stay "ab" "cd" "q" "x" "S"); discriminate.
Defined.

(** ** The loader *)

Lemma add_rule_lookup rs cs rd ns wr mv k :
  add_rule rs cs rd ns wr mv !! k
  = if decide ((cs, rd) = k)
    then Some (default [] (rs !! k) ++ [(ns, wr, mv)])
    else rs !! k.
Proof.
  unfold add_rule. case_decide as Hk.
  - subst k. by rewrite lookup_insert_eq.
  - by rewrite lookup_insert_ne.
Qed.

Lemma load_rules_lookup_core rows rs rs' k :
  load_rules rows rs = Some rs' →
  rs' !! k = match rules_of_rows k rows with
             | [] => rs !! k
             | t :: ts => Some (default [] (rs !! k) ++ t :: ts)
             end.
Proof.
  revert rs. induction rows as [|row rows IH]; intros rs Hload.
  - injection Hload as <-. done.
  - destruct row as [|cs [|rd [|ns [|wr [|mv [|x row]]]]]]; try discriminate.
    simpl in Hload. apply IH in Hload. rewrite Hload, add_rule_lookup.
    unfold rules_of_rows. simpl flat_map. fold (rules_of_rows k rows).
    case_decide as Hk; simpl.
    + destruct (rules_of_rows k rows) as [|t ts]; [done|].
      by rewrite <- app_assoc.
    + done.
Qed.

(** X5.  After the rule rows are loaded, the table holds under each key the
    rules it held before followed by the rules of the rows with that key,
    in the order of the rows; a key without a row is left as it was. *)
Theorem load_rules_lookup rows rs rs' k :
  load_rules rows rs = Some rs' →
  rs' !! k = match rules_of_rows k rows with
             | [] => rs !! k
             | t :: ts => Some (default [] (rs !! k) ++ t :: ts)
             end.
Proof. apply load_rules_lookup_core. Qed.

Lemma load_rules_lookup_witness :
  load_rules [["q0"; "a"; "q0"; "a"; "R"]; ["q0"; "a"; "qacc"; "a"; "R"]] ∅
  = Some (<[("q0", "a") := [("q0", "a", "R"); ("qacc", "a", "R")]]> ∅)
  ∧ (<[("q0", "a") := [("q0", "a", "R"); ("qacc", "a", "R")]]> ∅
       : gmap (string * string) (list transition)) !! ("q0", "a")
    = Some [("q0", "a", "R"); ("qacc", "a", "R")].
Proof.
  assert (load_rules
            [["q0"; "a"; "q0"; "a"; "R"]; ["q0"; "a"; "qacc"; "a"; "R"]] ∅
          = Some (<[("q0", "a") := [("q0", "a", "R"); ("qacc", "a", "R")]]> ∅))
    as Hload by (vm_compute; reflexivity).
  split; [exact Hload|].
  exact (load_rules_lookup _ _ _ ("q0", "a") Hload).
Defined.

Lemma load_rules_succeeds_iff_core rows rs :
  is_Some (load_rules rows rs) ↔ Forall (λ row, length row = 5%nat) rows.
Proof.
  revert rs. induction rows as [|row rows IH]; intros rs.
  - split; [constructor | by eexists].
  - destruct row as [|cs [|rd [|ns [|wr [|mv [|x row]]]]]]; simpl;
      try (split;
           [ by intros [? ?]
           | intros H; inversion H as [|? ? Hlen ?]; simpl in Hlen; lia ]).
    rewrite IH. split; [by constructor | by inversion 1].
Qed.

(** X6.  Loading the rule rows fails (the unpacking of line 35 raises)
    exactly when some row does not have five cells. *)
Theorem load_rules_succeeds_iff rows rs :
  is_Some (load_rules rows rs) ↔ Forall (λ row, length row = 5%nat) rows.
Proof. apply load_rules_succeeds_iff_core. Qed.

Lemma load_from_rows_spec_core rows tm k :
  load_from_rows rows = Some tm →
  rules tm !! k = match rules_of_rows k (drop 7 rows) with
                  | [] => None
                  | t :: ts => Some (t :: ts)
                  end
  ∧ rows !! 4%nat ≫= head = Some (start tm)
  ∧ rows !! 5%nat ≫= head = Some (accept tm)
  ∧ rows !! 6%nat ≫= head = Some (reject tm)
  ∧ depth_limit tm = 100 ∧ transition_limit tm = 1000.
Proof.
  unfold load_from_rows. intros Hload.
  destruct (rows !! 0%nat ≫= head) as [nm|]; [|done].
  destruct (rows !! 1%nat) as [sts|]; [|done].
  destruct (rows !! 2%nat) as [ins|]; [|done].
  destruct (rows !! 3%nat) as [tps|]; [|done].
  destruct (rows !! 4%nat ≫= head) as [st|]; [|done].
  destruct (rows !! 5%nat ≫= head) as [ac|]; [|done].
  destruct (rows !! 6%nat ≫= head) as [rj|]; [|done].
  destruct (load_rules (drop 7 rows) ∅) as [rs|] eqn:Hrules; [|done].
  simpl in Hload. injection Hload as <-. simpl.
  split; [|done].
  rewrite (load_rules_lookup_core _ _ _ k Hrules), lookup_empty. done.
Qed.

(** X7.  What a successfully loaded machine holds: its rule table has under
    each key exactly the rules of the rule rows with that key, in row order,
    and no key with an empty list; the three named states are the first
    cells of rows 4, 5 and 6; the limits are the defaults 100 and 1000. *)
Theorem load_from_rows_spec rows tm k :
  load_from_rows rows = Some tm →
  rules tm !! k = match rules_of_rows k (drop 7 rows) with
                  | [] => None
                  | t :: ts => Some (t :: ts)
                  end
  ∧ rows !! 4%nat ≫= head = Some (start tm)
  ∧ rows !! 5%nat ≫= head = Some (accept tm)
  ∧ rows !! 6%nat ≫= head = Some (reject tm)
  ∧ depth_limit tm = 100 ∧ transition_limit tm = 1000.
Proof. apply load_from_rows_spec_core. Qed.

Lemma load_from_rows_spec_witness :
  rules race_loop_first !! ("q0", "a")
  = Some [("q0", "a", "R"); ("qacc", "a", "R")]
  ∧ rules race_loop_first !! ("q0", "_") = None.
Proof.
  assert (load_from_rows
            (rows_header "race2" ++
               [["q0"; "a"; "q0"; "a"; "R"]; ["q0"; "a"; "qacc"; "a"; "R"]])
          = Some race_loop_first) as Hload by (vm_compute; reflexivity).
  split.
  - exact (proj1 (load_from_rows_spec _ _ ("q0", "a") Hload)).
  - exact (proj1 (load_from_rows_spec _ _ ("q0", "_") Hload)).
Defined.

(** X8.  Loading succeeds exactly when the file has the seven header rows,
    rows 0, 4, 5 and 6 are not empty, and every rule row has five cells. *)
Theorem load_from_rows_succeeds_iff rows :
  is_Some (load_from_rows rows)
  ↔ (7 ≤ length rows)%nat
    ∧ (∀ i, i ∈ [0; 4; 5; 6]%nat → rows !! i ≠ Some [])
    ∧ Forall (λ row, length row = 5%nat) (drop 7 rows).
Proof.
  rewrite <- (load_rules_succeeds_iff_core (drop 7 rows) ∅).
  split.
  - intros [tm Htm]. unfold load_from_rows in Htm.
    destruct (rows !! 0%nat ≫= head) as [nm|] eqn:H0; [|done].
    destruct (rows !! 1%nat) as [sts|] eqn:H1; [|done].
    destruct (rows !! 2%nat) as [ins|] eqn:H2; [|done].
    destruct (rows !! 3%nat) as [tps|] eqn:H3; [|done].
    destruct (rows !! 4%nat ≫= head) as [st|] eqn:H4; [|done].
    destruct (rows !! 5%nat ≫= head) as [ac|] eqn:H5; [|done].
    destruct (rows !! 6%nat ≫= head) as [rj|] eqn:H6; [|done].
    destruct (load_rules (drop 7 rows) ∅) as [rs|] eqn:Hrules; [|done].
    split.
    { destruct (rows !! 6%nat) as [r6|] eqn:E; [|done].
      apply lookup_lt_Some in E. lia. }
    split; [|by eexists].
    intros i Hi Hrow. set_unfold in Hi.
    destruct Hi as [->|[->|[->|[->|[]]]]]; rewrite Hrow in *; done.
  - intros (Hlen & Hne & [rs Hrs]). unfold load_from_rows.
    destruct (lookup_lt_is_Some_2 rows 0) as [r0 H0]; [lia|].
    destruct (lookup_lt_is_Some_2 rows 1) as [r1 H1]; [lia|].
    destruct (lookup_lt_is_Some_2 rows 2) as [r2 H2]; [lia|].
    destruct (lookup_lt_is_Some_2 rows 3) as [r3 H3]; [lia|].
    destruct (lookup_lt_is_Some_2 rows 4) as [r4 H4]; [lia|].
    destruct (lookup_lt_is_Some_2 rows 5) as [r5 H5]; [lia|].
    destruct (lookup_lt_is_Some_2 rows 6) as [r6 H6]; [lia|].
    rewrite H0, H1, H2, H3, H4, H5, H6, Hrs.
    destruct r0 as [|nm r0]; [by apply Hne in H0; [|set_solver]|].
    destruct r4 as [|st r4]; [by apply Hne in H4; [|set_solver]|].
    destruct r5 as [|ac r5]; [by apply Hne in H5; [|set_solver]|].
    destruct r6 as [|rj r6]; [by apply Hne in H6; [|set_solver]|].
    simpl. by eexists.
Qed.

Lemma load_from_rows_fails_on_short_file :
  load_from_rows [["m"]; ["q0"]; ["a"]; ["a"; "_"]; ["q0"]; ["qacc"]] = None.
Proof. reflexivity. Qed.

(** X9.  For a loaded machine, a configuration that is examined is stuck
    (gets the synthesized rejecting successor) exactly when no rule row has
    its state and the symbol under its head; otherwise its successors are
    those of the rows with that key, in row order. *)
Theorem loaded_successors rows tm c :
  load_from_rows rows = Some tm →
  successors tm c
  = match rules_of_rows (current_state c, read_symbol (tape_right c))
            (drop 7 rows) with
    | [] => [Config (tape_left c) (reject tm) (tape_right c)]
    | t :: ts => map (apply_transition (tape_left c) (tape_right c)) (t :: ts)
    end.
Proof.
  intros Hload. unfold successors.
  rewrite (proj1 (load_from_rows_spec_core _ _
                    (current_state c, read_symbol (tape_right c)) Hload)).
  by destruct (rules_of_rows _ (drop 7 rows)).
Qed.

Lemma loaded_successors_witness :
  successors stuck_tm (Config "" "q0" "") = [Config "" "qrej" ""].
Proof.
  assert (load_from_rows (rows_header "stuck") = Some stuck_tm) as Hload
    by (vm_compute; reflexivity).
  exact (loaded_successors _ _ (Config "" "q0" "") Hload).
Defined.

(** ** The acceptance report *)

Lemma print_levels_in_tree (tree : list (list config)) a n printed :
  (a + n ≤ length tree)%nat →
  print_levels tree (seq a n) printed
  = inr (printed ++ level_census a (take n (drop a tree))).
Proof.
  revert a printed. induction n as [|n IH]; intros a printed Hle.
  - simpl. by rewrite app_nil_r.
  - destruct (lookup_lt_is_Some_2 tree a) as [level Hlevel]; [lia|].
    simpl. rewrite Hlevel, IH by lia.
    rewrite (drop_S _ _ _ Hlevel). simpl. by rewrite app_assoc.
Qed.

Lemma print_levels_past_tree (tree : list (list config)) a n printed :
  (a ≤ length tree)%nat → (length tree < a + n)%nat →
  print_levels tree (seq a n) printed = inl IndexError.
Proof.
  revert a printed. induction n as [|n IH]; intros a printed Ha Hlt; [lia|].
  simpl. destruct (tree !! a) as [level|] eqn:Hlevel.
  - apply lookup_lt_Some in Hlevel as Hlen. apply IH; lia.
  - done.
Qed.

Lemma print_accept_path_cases_core (tree : list (list config)) (depth : Z) :
  print_accept_path tree depth
  = if decide (depth < 0) then
      inr (Report [] 0 (Qdiv (inject_Z 0) (inject_Z depth)))
    else if decide (Z.of_nat (length tree) ≤ depth) then inl IndexError
    else if decide (depth = 0) then inl ZeroDivisionError
    else
      let printed := level_census 0 (take (Z.to_nat (depth + 1)) tree) in
      inr (Report printed (Z.of_nat (length printed))
             (Qdiv (inject_Z (Z.of_nat (length printed))) (inject_Z depth))).
Proof.
  unfold print_accept_path.
  destruct (decide (depth < 0)) as [Hneg|Hneg].
  { replace (Z.to_nat (depth + 1)) with 0%nat by lia. simpl.
    rewrite bool_decide_false by lia. done. }
  destruct (decide (Z.of_nat (length tree) ≤ depth)) as [Hpast|Hpast].
  { rewrite print_levels_past_tree by lia. done. }
  rewrite print_levels_in_tree by lia. rewrite drop_0. simpl app.
  destruct (decide (depth = 0)) as [Hz|Hz].
  - by rewrite bool_decide_true.
  - by rewrite bool_decide_false.
Qed.

(** X10.  What [print_accept_path] does for every tree and depth: with a
    negative depth it prints no level and reports no configuration; with a
    depth that is not below the number of levels it fails with
    [IndexError]; with depth 0 on a tree that has a level it fails with
    [ZeroDivisionError]; otherwise it reports every configuration of the
    levels [0..depth], in order, together with its level number. *)
Theorem print_accept_path_cases (tree : list (list config)) (depth : Z) :
  print_accept_path tree depth
  = if decide (depth < 0) then
      inr (Report [] 0 (Qdiv (inject_Z 0) (inject_Z depth)))
    else if decide (Z.of_nat (length tree) ≤ depth) then inl IndexError
    else if decide (depth = 0) then inl ZeroDivisionError
    else
      let printed := level_census 0 (take (Z.to_nat (depth + 1)) tree) in
      inr (Report printed (Z.of_nat (length printed))
             (Qdiv (inject_Z (Z.of_nat (length printed))) (inject_Z depth))).
Proof. apply print_accept_path_cases_core. Qed.

Lemma elem_of_map {A B} (f : A → B) (l : list A) (y : B) :
  y ∈ map f l ↔ ∃ x, y = f x ∧ x ∈ l.
Proof.
  rewrite list_elem_of_In, in_map_iff. split.
  - intros (x & <- & Hx). exists x. by rewrite list_elem_of_In.
  - intros (x & -> & Hx). exists x. by rewrite <- list_elem_of_In.
Qed.

(** The lines of a census are the configurations of the levels, in
    order, each with the number of the level that holds it. *)
Lemma level_census_spec (levels : list (list config)) (i : nat) :
  map snd (level_census i levels) = concat levels
  ∧ length (level_census i levels) = length (concat levels)
  ∧ ∀ j c, (j, c) ∈ level_census i levels
           ↔ ∃ n level, j = Z.of_nat (i + n)
                        ∧ levels !! n = Some level ∧ c ∈ level.
Proof.
  revert i. induction levels as [|level levels IH]; intros i.
  - simpl. split; [done|]. split; [done|]. intros j c. split.
    + by intros ?%elem_of_nil.
    + by intros (n & l & _ & ? & _).
  - destruct (IH (S i)) as (Hsnd & Hlen & Hin). simpl.
    split; [|split].
    + rewrite map_app, Hsnd, map_map. simpl. by rewrite map_id.
    + rewrite !length_app, length_map, Hlen. done.
    + intros j c. rewrite elem_of_app, Hin. split.
      * intros [Hl|(n & l & -> & Hl & Hc)].
        -- apply elem_of_map in Hl as (c' & [= -> ->] & Hc).
           exists 0%nat, level. split; [f_equal; lia | done].
        -- exists (S n), l. split; [f_equal; lia | done].
      * intros ([|n] & l & -> & Hl & Hc); simpl in Hl.
        -- injection Hl as ->. left.
           apply elem_of_map. exists c. split; [|done].
           f_equal. f_equal. lia.
        -- right. exists n, l. split; [f_equal; lia | done].
Qed.

(** ** One level of the exploration *)

Lemma expandable_true self c :
  expandable self c = true
  ↔ current_state c ≠ accept self ∧ current_state c ≠ reject self.
Proof.
  unfold expandable. rewrite andb_true_iff, !negb_true_iff.
  by rewrite !String.eqb_neq.
Qed.

Lemma expandable_false self c :
  expandable self c = false
  ↔ current_state c = accept self ∨ current_state c = reject self.
Proof.
  unfold expandable. rewrite andb_false_iff, !negb_false_iff.
  by rewrite !String.eqb_eq.
Qed.

Lemma next_level_of_cons self c level :
  next_level_of self (c :: level)
  = (if expandable self c then successors self c else [])
    ++ next_level_of self level.
Proof. unfold next_level_of. simpl. by destruct (expandable self c). Qed.

Lemma next_level_of_app self l1 l2 :
  next_level_of self (l1 ++ l2) = next_level_of self l1 ++ next_level_of self l2.
Proof.
  induction l1 as [|c l1 IH]; [done|].
  change ((c :: l1) ++ l2) with (c :: (l1 ++ l2)).
  by rewrite !next_level_of_cons, IH, app_assoc.
Qed.

Lemma examined_app self l1 l2 :
  examined self (l1 ++ l2) = examined self l1 + examined self l2.
Proof.
  unfold examined. rewrite List.filter_app, length_app. lia.
Qed.

(** The level scan falls through on a level without accepting
    configuration whose expansion the budget allows. *)
Lemma scan_level_complete self tree level next_level steps_count :
  Forall (λ c, current_state c ≠ accept self) level →
  examined self level = 0
  ∨ steps_count + examined self level ≤ transition_limit self →
  scan_level self tree level next_level steps_count
  = ScanDone (next_level ++ next_level_of self level)
      (steps_count + examined self level).
Proof.
  revert next_level steps_count.
  induction level as [|c level IH]; intros next_level steps_count Hacc Hbudget.
  - unfold examined. simpl. by rewrite app_nil_r, Z.add_0_r.
  - inversion Hacc as [|? ? Hc Hrest]; subst.
    rewrite examined_cons, next_level_of_cons in *.
    pose proof (examined_nonneg self level) as Hnn.
    destruct (expandable self c) eqn:Hexp.
    + apply expandable_true in Hexp as [_ Hrej].
      rewrite scan_level_expand by (done || lia).
      rewrite IH by (done || lia).
      rewrite <- app_assoc. f_equal. lia.
    + apply expandable_false in Hexp as [Hacc'|Hrej]; [done|].
      rewrite scan_level_skip by done.
      rewrite IH by (done || (destruct Hbudget; [left|right]; lia)).
      simpl. f_equal.
Qed.

Lemma scan_level_done_iff_core self tree level next_level steps_count
    next_level' steps_count' :
  scan_level self tree level next_level steps_count
    = ScanDone next_level' steps_count'
  ↔ Forall (λ c, current_state c ≠ accept self) level
    ∧ (examined self level = 0
       ∨ steps_count + examined self level ≤ transition_limit self)
    ∧ next_level' = next_level ++ next_level_of self level
    ∧ steps_count' = steps_count + examined self level.
Proof.
  split.
  - intros Hscan.
    pose proof (scan_level_done _ _ _ _ _ _ _ Hscan)
      as (Hs & Hacc & Hlim & _).
    pose proof (examined_nonneg self level) as Hnn.
    assert (examined self level = 0
            ∨ steps_count + examined self level ≤ transition_limit self)
      as Hbudget by (destruct (decide (examined self level = 0)); [left|right]; lia).
    rewrite scan_level_complete in Hscan by done.
    injection Hscan as <- <-. done.
  - intros (Hacc & Hbudget & -> & ->). by apply scan_level_complete.
Qed.

(** X11.  The level scan falls through exactly when the level holds no
    accepting configuration and the budget allows to expand the whole
    level; it then leaves in [next_level] the successors of the
    configurations that are neither accepting nor rejecting, in order, and
    has counted one transition for each of them. *)
Theorem scan_level_done_iff self tree level next_level steps_count
    next_level' steps_count' :
  scan_level self tree level next_level steps_count
    = ScanDone next_level' steps_count'
  ↔ Forall (λ c, current_state c ≠ accept self) level
    ∧ (examined self level = 0
       ∨ steps_count + examined self level ≤ transition_limit self)
    ∧ next_level' = next_level ++ next_level_of self level
    ∧ steps_count' = steps_count + examined self level.
Proof. apply scan_level_done_iff_core. Qed.

Lemma scan_level_app_core self tree front rest next_level steps_count :
  Forall (λ c, current_state c ≠ accept self) front →
  examined self front = 0
  ∨ steps_count + examined self front ≤ transition_limit self →
  scan_level self tree (front ++ rest) next_level steps_count
  = scan_level self tree rest (next_level ++ next_level_of self front)
      (steps_count + examined self front).
Proof.
  revert next_level steps_count.
  induction front as [|c front IH]; intros next_level steps_count Hacc Hbudget.
  - unfold examined. simpl. by rewrite app_nil_r, Z.add_0_r.
  - inversion Hacc as [|? ? Hc Hrest]; subst.
    change ((c :: front) ++ rest) with (c :: (front ++ rest)).
    rewrite examined_cons, next_level_of_cons in *.
    pose proof (examined_nonneg self front) as Hnn.
    destruct (expandable self c) eqn:Hexp.
    + apply expandable_true in Hexp as [_ Hrej].
      rewrite scan_level_expand by (done || lia).
      rewrite IH by (done || lia).
      rewrite <- app_assoc. f_equal. lia.
    + apply expandable_false in Hexp as [Hacc'|Hrej]; [done|].
      rewrite scan_level_skip by done.
      rewrite IH by (done || (destruct Hbudget; [left|right]; lia)).
      simpl. f_equal.
Qed.



(** X13.  The first accepting configuration of a level halts the run, as
    long as the budget allowed to expand the configurations in front of
    it: the configurations behind it are not looked at, and the counter
    stands at what the front part cost. *)
Theorem scan_level_first_accept self tree front c rest next_level steps_count :
  Forall (λ c, current_state c ≠ accept self) front →
  current_state c = accept self →
  examined self front = 0
  ∨ steps_count + examined self front ≤ transition_limit self →
  scan_level self tree (front ++ c :: rest) next_level steps_count
  = ScanReturn (accept_and_halt tree (steps_count + examined self front))
      (steps_count + examined self front).
Proof.
  intros Hfront Hc Hbudget.
  rewrite scan_level_app_core by done. by apply scan_level_accept.
Qed.

Lemma scan_level_first_accept_witness :
  scan_level (set_limits race_loop_first 100 1000)
    [[Config "" "q0" "a"]; [Config "a" "q0" "_"; Config "a" "qacc" "_"]]
    ([Config "a" "q0" "_"] ++ Config "a" "qacc" "_" :: []) [] 1
  = ScanReturn
      (accept_and_halt
         [[Config "" "q0" "a"]; [Config "a" "q0" "_"; Config "a" "qacc" "_"]]
         (1 + examined (set_limits race_loop_first 100 1000)
                [Config "a" "q0" "_"]))
      (1 + examined (set_limits race_loop_first 100 1000) [Config "a" "q0" "_"]).
Proof.
  apply (scan_level_first_accept (set_limits race_loop_first 100 1000)).
  - constructor; [vm_compute; discriminate | constructor].
  - vm_compute. reflexivity.
  - right. vm_compute. discriminate.
Defined.

(** X14.  The budget is spent inside a level: when the configurations in
    front of one that is to be expanded have used the budget up, the scan
    returns [TransitionLimitExceeded], whatever comes behind, an accepting
    configuration included. *)
Theorem scan_level_budget_spent self tree front c rest next_level steps_count :
  Forall (λ c, current_state c ≠ accept self) front →
  expandable self c = true →
  examined self front = 0
  ∨ steps_count + examined self front ≤ transition_limit self →
  transition_limit self < steps_count + examined self front + 1 →
  scan_level self tree (front ++ c :: rest) next_level steps_count
  = ScanReturn (Return (TransitionLimitExceeded (transition_limit self)))
      (steps_count + examined self front + 1).
Proof.
  intros Hfront Hc Hbudget Hspent.
  rewrite scan_level_app_core by done. rewrite scan_level_cons.
  apply expandable_true in Hc as [Hacc Hrej].
  apply String.eqb_neq in Hacc, Hrej. rewrite Hacc, Hrej.
  by rewrite bool_decide_true by lia.
Qed.

Lemma scan_level_budget_spent_witness :
  scan_level (set_limits fork_accept_tm 100 2)
    [[Config "" "q0" "a"];
     [Config "a" "q0" "_"; Config "" "q0" "_a"; Config "a" "qacc" "_"]]
    ([Config "a" "q0" "_"] ++ Config "" "q0" "_a" :: [Config "a" "qacc" "_"])
    [] 1
  = ScanReturn (Return (TransitionLimitExceeded 2))
      (1 + examined (set_limits fork_accept_tm 100 2) [Config "a" "q0" "_"]
       + 1)
  ∧ 1 + examined (set_limits fork_accept_tm 100 2) [Config "a" "q0" "_"] + 1
    = 3
  ∧ run fork_accept_tm "a" 100 2
    = Some (Return (TransitionLimitExceeded 2),
            ([[Config "" "q0" "a"];
              [Config "a" "q0" "_"; Config "" "q0" "_a";
               Config "a" "qacc" "_"]], 3)).
Proof.
  split; [|split; vm_compute; reflexivity].
  apply (scan_level_budget_spent (set_limits fork_accept_tm 100 2)).
  - constructor; [vm_compute; discriminate | constructor].
  - vm_compute. reflexivity.
  - right. vm_compute. discriminate.
  - vm_compute. reflexivity.
Defined.

(** ** The tree of a run is the breadth-first tree *)

Lemma bfs_tree_S self c0 k :
  bfs_tree self c0 (S k) = bfs_tree self c0 k ++ [bfs_level self c0 (S k)].
Proof.
  unfold bfs_tree. rewrite (seq_S (S k) 0), map_app. done.
Qed.

Lemma bfs_tree_length self c0 k : length (bfs_tree self c0 k) = S k.
Proof. unfold bfs_tree. by rewrite length_map, length_seq. Qed.

Lemma bfs_tree_last self c0 k :
  last (bfs_tree self c0 k) = Some (bfs_level self c0 k).
Proof.
  destruct k as [|k]; [done|]. by rewrite bfs_tree_S, last_snoc.
Qed.

Lemma bfs_tree_lookup self c0 k i :
  (i ≤ k)%nat → bfs_tree self c0 k !! i = Some (bfs_level self c0 i).
Proof.
  intros Hi. induction k as [|k IH].
  - by replace i with 0%nat by lia.
  - rewrite bfs_tree_S. destruct (decide (i = S k)) as [->|Hne].
    + rewrite lookup_app_r by (rewrite bfs_tree_length; lia).
      rewrite bfs_tree_length. by rewrite Nat.sub_diag.
    + rewrite lookup_app_l by (rewrite bfs_tree_length; lia).
      apply IH. lia.
Qed.

Lemma bfs_level_empty_after self c0 k n :
  bfs_level self c0 k = [] → bfs_level self c0 (k + n) = [].
Proof.
  intros Hk. induction n as [|n IH]; [by rewrite Nat.add_0_r|].
  rewrite Nat.add_succ_r. simpl. by rewrite IH.
Qed.

Lemma any_not_reject_nonempty self level :
  any_not_reject self level = true → level ≠ [].
Proof. by destruct level. Qed.

(** A level with a successor level holds a configuration that is examined. *)
Lemma next_level_examined self level :
  next_level_of self level ≠ [] → 1 ≤ examined self level.
Proof.
  unfold next_level_of, examined.
  destruct (List.filter (expandable self) level); [done | simpl; lia].
Qed.

Lemma consumed_nonneg self c0 k : 0 ≤ consumed self c0 k.
Proof.
  induction k as [|k IH]; simpl; [lia|].
  pose proof (examined_nonneg self (bfs_level self c0 k)). lia.
Qed.

Lemma consumed_monotone self c0 i k :
  (i ≤ k)%nat → consumed self c0 i ≤ consumed self c0 k.
Proof.
  induction 1 as [|k _ IH]; [lia|]. simpl.
  pose proof (examined_nonneg self (bfs_level self c0 k)). lia.
Qed.

(** The limits do not enter the exploration. *)
Lemma bfs_level_set_limits self max_depth max_steps c0 k :
  bfs_level (set_limits self max_depth max_steps) c0 k = bfs_level self c0 k.
Proof. induction k as [|k IH]; [done|]. simpl. by rewrite IH. Qed.

Lemma bfs_tree_set_limits self max_depth max_steps c0 k :
  bfs_tree (set_limits self max_depth max_steps) c0 k = bfs_tree self c0 k.
Proof.
  unfold bfs_tree. apply map_ext. intros i. apply bfs_level_set_limits.
Qed.

Lemma consumed_set_limits self max_depth max_steps c0 k :
  consumed (set_limits self max_depth max_steps) c0 k = consumed self c0 k.
Proof.
  induction k as [|k IH]; [done|]. simpl.
  by rewrite IH, bfs_level_set_limits.
Qed.

(** One round from a tree whose last level can be scanned through. *)
Lemma loop_body_round self tree level steps_count :
  last tree = Some level →
  Forall (λ c, current_state c ≠ accept self) level →
  examined self level = 0
  ∨ steps_count + examined self level ≤ transition_limit self →
  loop_body self tree steps_count
  = let next_level := next_level_of self level in
    let tree' := append_level tree next_level in
    let steps_count' := steps_count + examined self level in
    if bool_decide (Z.of_nat (length tree') > depth_limit self) then
      Halt (Return (DepthLimitExceeded steps_count' (depth_limit self)))
        (tree', steps_count')
    else if negb (any_not_reject self next_level) then
      Halt (Return (Rejected steps_count' (Z.of_nat (length tree') - 1)))
        (tree', steps_count')
    else Continue (tree', steps_count').
Proof.
  intros Hlast Hacc Hbudget. unfold loop_body.
  rewrite Hlast, scan_level_complete by done. done.
Qed.

Lemma elem_of_next_level_of self level c' :
  c' ∈ next_level_of self level
  ↔ ∃ c, c ∈ level ∧ expandable self c = true ∧ c' ∈ successors self c.
Proof.
  unfold next_level_of. rewrite list_elem_of_In, in_flat_map. split.
  - intros (c & Hc & Hc'). apply filter_In in Hc as [Hc Hexp].
    exists c. by rewrite !list_elem_of_In.
  - intros (c & Hc & Hexp & Hc'). exists c.
    rewrite filter_In, <- !list_elem_of_In. done.
Qed.

(** The levels of the breadth-first exploration hold exactly the
    configurations that the machine reaches in that many steps. *)
Lemma bfs_level_path self c0 k c :
  c ∈ bfs_level self c0 k ↔ path self c0 k c.
Proof.
  split.
  - revert c. induction k as [|k IH]; intros c Hc.
    + apply list_elem_of_singleton in Hc as ->. constructor.
    + simpl in Hc. apply elem_of_next_level_of in Hc as (c1 & Hc1 & Hexp & Hc).
      eapply path_step; eauto.
  - induction 1 as [|k c1 c2 _ IH Hexp Hc2].
    + by apply list_elem_of_singleton.
    + simpl. apply elem_of_next_level_of. eauto.
Qed.

Lemma reachable_bfs_core self input_data st :
  reachable self input_data st →
  ∃ k, st = (bfs_tree self (initial_config self input_data) k,
             consumed self (initial_config self input_data) k)
    ∧ (∀ i, (i < k)%nat →
         Forall (λ c, current_state c ≠ accept self)
           (bfs_level self (initial_config self input_data) i))
    ∧ (∀ i, (i ≤ k)%nat →
         bfs_level self (initial_config self input_data) i ≠ [])
    ∧ ((0 < k)%nat →
       any_not_reject self
         (bfs_level self (initial_config self input_data) k) = true).
Proof.
  unfold reachable. revert st. apply rtc_ind_r.
  - exists 0%nat. split; [done|]. split; [intros; lia|].
    split; [|intros; lia]. intros i Hi. by replace i with 0%nat by lia.
  - intros st st' _ (Hne & Hg & Hb) (k & -> & Hacc & Hnonempty & Hlive).
    set (c0 := initial_config self input_data) in *. simpl in Hb, Hg.
    unfold loop_body in Hb. rewrite bfs_tree_last in Hb.
    destruct (scan_level self (bfs_tree self c0 k) (bfs_level self c0 k) []
                (consumed self c0 k)) as [r s|next_level s] eqn:Hscan;
      [discriminate|].
    apply scan_level_done_iff_core in Hscan as (Hacck & _ & -> & ->).
    simpl app in Hb.
    change (next_level_of self (bfs_level self c0 k))
      with (bfs_level self c0 (S k)) in Hb.
    case_bool_decide as Hdepth; [discriminate|].
    destruct (any_not_reject self (bfs_level self c0 (S k))) eqn:Hany;
      cbn [negb] in Hb; [|discriminate].
    injection Hb as <-.
    pose proof (any_not_reject_nonempty _ _ Hany) as Hnext.
    exists (S k). split; [|split; [|split]].
    + rewrite bfs_tree_S. unfold append_level.
      change (bfs_level self c0 (S k))
        with (next_level_of self (bfs_level self c0 k)) in *.
      by destruct (next_level_of self (bfs_level self c0 k)).
    + intros i Hi. destruct (decide (i = k)) as [->|]; [done|].
      apply Hacc. lia.
    + intros i Hi. destruct (decide (i = S k)) as [->|]; [done|].
      apply Hnonempty. lia.
    + done.
Qed.

(** X15.  At the head of every turn of the loop, the tree is the
    breadth-first tree of some depth [k]: level [i + 1] holds the successors
    of the configurations of level [i] that are neither accepting nor
    rejecting.  The counter is the number of configurations examined in the
    levels below [k]; these levels hold no accepting configuration, no
    level is empty, and the last one holds a configuration that does not
    reject. *)
Theorem reachable_bfs self input_data st :
  reachable self input_data st →
  ∃ k, st = (bfs_tree self (initial_config self input_data) k,
             consumed self (initial_config self input_data) k)
    ∧ (∀ i, (i < k)%nat →
         Forall (λ c, current_state c ≠ accept self)
           (bfs_level self (initial_config self input_data) i))
    ∧ (∀ i, (i ≤ k)%nat →
         bfs_level self (initial_config self input_data) i ≠ [])
    ∧ ((0 < k)%nat →
       any_not_reject self
         (bfs_level self (initial_config self input_data) k) = true).
Proof. apply reachable_bfs_core. Qed.

Lemma reachable_bfs_witness :
  ∃ k, ([[Config "" "q0" "a"];
       [Config "a" "q0" "_"; Config "" "q0" "_a"];
       [Config "a_" "q0" "_"; Config "" "q0" "a_";
        Config "_" "q0" "a"; Config "" "q0" "__a"]], 3)
       = (bfs_tree forking_tm (initial_config forking_tm "a") k,
          consumed forking_tm (initial_config forking_tm "a") k)
    ∧ (∀ i, (i < k)%nat →
         Forall (λ c, current_state c ≠ accept forking_tm)
           (bfs_level forking_tm (initial_config forking_tm "a") i))
    ∧ (∀ i, (i ≤ k)%nat →
         bfs_level forking_tm (initial_config forking_tm "a") i ≠ [])
    ∧ ((0 < k)%nat →
       any_not_reject forking_tm
         (bfs_level forking_tm (initial_config forking_tm "a") k) = true).
Proof.
  apply (reachable_bfs forking_tm "a").
  unfold reachable.
  apply (rtc_l _ _ ([[Config "" "q0" "a"];
                     [Config "a" "q0" "_"; Config "" "q0" "_a"]], 1)).
  { split; [discriminate|]. split; [reflexivity|]. vm_compute. reflexivity. }
  apply rtc_once.
  split; [discriminate|]. split; [reflexivity|]. vm_compute. reflexivity.
Defined.

(** The number of transitions consumed is at least the depth. *)
Lemma consumed_at_least_depth self c0 k :
  (∀ i, (i ≤ k)%nat → bfs_level self c0 i ≠ []) →
  Z.of_nat k ≤ consumed self c0 k.
Proof.
  induction k as [|k IH]; intros Hne; simpl consumed; [lia|].
  assert (1 ≤ examined self (bfs_level self c0 k)).
  { apply next_level_examined. apply (Hne (S k)). lia. }
  assert (Z.of_nat k ≤ consumed self c0 k) by (apply IH; intros; apply Hne; lia).
  lia.
Qed.

(** How a run ends, in terms of the breadth-first tree: at the head of the
    turn in which it ends, the locals are the tree of some depth [k] and
    its cost. *)
Lemma run_last_round self input_data max_depth max_steps r st' :
  run self input_data max_depth max_steps = Some (r, st') →
  ∃ k,
    (∀ i, (i < k)%nat →
       Forall (λ c, current_state c ≠ accept self)
         (bfs_level self (initial_config self input_data) i))
    ∧ (∀ i, (i ≤ k)%nat →
         bfs_level self (initial_config self input_data) i ≠ [])
    ∧ ((0 < k)%nat →
       any_not_reject self
         (bfs_level self (initial_config self input_data) k) = true
       ∧ Z.of_nat k + 1 ≤ max_depth
       ∧ consumed self (initial_config self input_data) k ≤ max_steps)
    ∧ ((r = Return NoPath
        ∧ st' = (bfs_tree self (initial_config self input_data) k,
                 consumed self (initial_config self input_data) k)
        ∧ ¬ consumed self (initial_config self input_data) k < max_steps)
       ∨ (consumed self (initial_config self input_data) k < max_steps
          ∧ loop_body (set_limits self max_depth max_steps)
              (bfs_tree self (initial_config self input_data) k)
              (consumed self (initial_config self input_data) k)
            = Halt r st')).
Proof.
  intros Hrun.
  apply run_ends in Hrun as (st & Hreach & _ & Hend).
  pose proof (reachable_inv _ _ _ Hreach) as (_ & _ & Hinv).
  apply reachable_bfs_core in Hreach as (k & -> & Hacc & Hne & Hlive).
  change (initial_config (set_limits self max_depth max_steps) input_data)
    with (initial_config self input_data) in *.
  rewrite bfs_tree_set_limits, consumed_set_limits in *.
  exists k. split; [|split; [|split]].
  - intros i Hi. specialize (Hacc i Hi).
    by rewrite bfs_level_set_limits in Hacc.
  - intros i Hi. specialize (Hne i Hi).
    by rewrite bfs_level_set_limits in Hne.
  - intros Hk. specialize (Hlive Hk).
    rewrite bfs_level_set_limits in Hlive. split; [exact Hlive|].
    destruct Hinv as [Hinit|[Hlen Hs]].
    + pose proof (f_equal (λ st : locals, length st.1) Hinit) as Ht.
      change (length (bfs_tree self (initial_config self input_data) k)
              = 1%nat) in Ht.
      rewrite bfs_tree_length in Ht. lia.
    + cbn [fst snd] in Hlen, Hs. rewrite bfs_tree_length in Hlen.
      simpl in Hlen, Hs. lia.
  - simpl in Hend. destruct Hend as [(-> & -> & Hg)|(_ & Hg & Hb)].
    + left. done.
    + right. done.
Qed.

Lemma any_not_reject_false self level :
  any_not_reject self level = false
  ↔ Forall (λ c, current_state c = reject self) level.
Proof.
  unfold any_not_reject. induction level as [|c level IH]; simpl.
  - split; [constructor | done].
  - rewrite orb_false_iff, negb_false_iff, String.eqb_eq, IH.
    split; [intros [? ?]; by constructor | by inversion 1].
Qed.

Lemma nonempty_levels_concat {A} (levels : list (list A)) :
  Forall (λ l, l ≠ []) levels → (length levels ≤ length (concat levels))%nat.
Proof.
  induction 1 as [|l levels Hl _ IH]; simpl; [lia|].
  rewrite length_app. destruct l; [done | simpl; lia].
Qed.

(** How a round that halts on the breadth-first tree of depth [k] ends. *)
Lemma loop_body_bfs_halt self max_depth max_steps c0 k steps_count r st' :
  loop_body (set_limits self max_depth max_steps) (bfs_tree self c0 k)
    steps_count = Halt r st' →
  (∃ n, r = accept_and_halt (bfs_tree self c0 k) n
        ∧ st' = (bfs_tree self c0 k, n)
        ∧ steps_count ≤ n
        ∧ Exists (λ c, current_state c = accept self) (bfs_level self c0 k))
  ∨ (r = Return (TransitionLimitExceeded max_steps)
     ∧ st'.1 = bfs_tree self c0 k)
  ∨ (Forall (λ c, current_state c ≠ accept self) (bfs_level self c0 k)
     ∧ st' = (append_level (bfs_tree self c0 k) (bfs_level self c0 (S k)),
              steps_count + examined self (bfs_level self c0 k))
     ∧ (r = Return (DepthLimitExceeded st'.2 max_depth)
        ∨ (r = Return (Rejected st'.2 (Z.of_nat (length st'.1) - 1))
           ∧ any_not_reject self (bfs_level self c0 (S k)) = false))).
Proof.
  unfold loop_body. rewrite bfs_tree_last.
  destruct (scan_level (set_limits self max_depth max_steps)
              (bfs_tree self c0 k) (bfs_level self c0 k) [] steps_count)
    as [r0 s|next_level s] eqn:Hscan.
  - intros [= <- <-].
    apply scan_level_return in Hscan
      as [Hb [(-> & _ & Hex)|(-> & _ & _)]].
    + left. exists s. split; [done|]. split; [done|]. split; [lia | exact Hex].
    + right. left. done.
  - apply scan_level_done_iff_core in Hscan as (Hacc & _ & -> & ->).
    simpl app.
    change (next_level_of (set_limits self max_depth max_steps)
              (bfs_level self c0 k)) with (bfs_level self c0 (S k)).
    change (examined (set_limits self max_depth max_steps)
              (bfs_level self c0 k)) with (examined self (bfs_level self c0 k)).
    case_bool_decide as Hdepth.
    + intros [= <- <-]. right. right. split; [exact Hacc|]. split; [done|].
      by left.
    + change (any_not_reject (set_limits self max_depth max_steps)
                (bfs_level self c0 (S k)))
        with (any_not_reject self (bfs_level self c0 (S k))).
      destruct (any_not_reject self (bfs_level self c0 (S k))) eqn:Hany;
        cbn [negb]; [discriminate|].
      intros [= <- <-]. right. right. split; [exact Hacc|]. split; [done|].
      by right.
Qed.

(** X16.  An [Accepted] outcome is sound and shallowest: the reported depth
    is at least 1, the machine does reach an accepting configuration in
    exactly that many steps, and in fewer steps it reaches none.  The tree
    at the halt is the breadth-first tree of that depth. *)
Theorem accepted_is_sound_and_shallowest
    self input_data max_depth max_steps n depth rep tree steps_count :
  run self input_data max_depth max_steps
    = Some (Return (Accepted n depth rep), (tree, steps_count)) →
  ∃ k, depth = Z.of_nat k ∧ (1 ≤ k)%nat
    ∧ tree = bfs_tree self (initial_config self input_data) k
    ∧ steps_count = n
    ∧ (∃ c, path self (initial_config self input_data) k c
            ∧ current_state c = accept self)
    ∧ (∀ i c, (i < k)%nat →
         path self (initial_config self input_data) i c →
         current_state c ≠ accept self).
Proof.
  intros Hrun.
  apply run_last_round in Hrun
    as (k & Hacc & Hne & _ & [([=] & _)|(Hg & Hb)]).
  set (c0 := initial_config self input_data) in *.
  apply loop_body_bfs_halt in Hb
    as [(n' & Hr & [= -> ->] & Hle & Hex)|[([=] & _)|(_ & _ & [[=]|([=] & _)])]].
  assert (bfs_tree self c0 k ≠ []) as Htree
    by (intros H; apply (f_equal length) in H;
        rewrite bfs_tree_length in H; done).
  destruct (accept_and_halt_cases (bfs_tree self c0 k) n' Htree)
    as [[_ Hraise]|[Hlen [rep' Hret]]]; [rewrite Hraise in Hr; discriminate|].
  rewrite bfs_tree_length in Hret, Hlen. rewrite Hret in Hr.
  injection Hr as -> -> ->.
  exists k. split; [lia|]. split; [lia|]. split; [done|]. split; [done|].
  split.
  - apply Exists_exists in Hex as (c & Hc & Hstate).
    exists c. split; [|done]. by apply bfs_level_path.
  - intros i c Hi Hpath. apply bfs_level_path in Hpath.
    specialize (Hacc i Hi). by apply (proj1 (Forall_forall _ _) Hacc).
Qed.

Lemma accepted_is_sound_and_shallowest_witness :
  ∃ k, 1 = Z.of_nat k ∧ (1 ≤ k)%nat
    ∧ [[Config "" "q0" "a"]; [Config "a" "q0" "_"; Config "a" "qacc" "_"]]
      = bfs_tree race_loop_first (initial_config race_loop_first "a") k
    ∧ 2 = 2
    ∧ (∃ c, path race_loop_first (initial_config race_loop_first "a") k c
            ∧ current_state c = accept race_loop_first)
    ∧ (∀ i c, (i < k)%nat →
         path race_loop_first (initial_config race_loop_first "a") i c →
         current_state c ≠ accept race_loop_first).
Proof.
  apply (accepted_is_sound_and_shallowest race_loop_first "a" 100 1000 2 1
           (Report
              [(0, Config "" "q0" "a"); (1, Config "a" "q0" "_");
               (1, Config "a" "qacc" "_")] 3
              (Qdiv (inject_Z 3) (inject_Z 1)))).
  vm_compute. reflexivity.
Defined.

(** The report that [execute] gets for its whole tree. *)
Lemma accept_and_halt_report (tree : list (list config)) n n' depth rep :
  accept_and_halt tree n = Return (Accepted n' depth rep) →
  n' = n ∧ depth = Z.of_nat (length tree) - 1 ∧ depth ≠ 0
  ∧ (tree ≠ [] →
     level_lines rep = level_census 0 tree
     ∧ num_configs rep = Z.of_nat (length (concat tree))
     ∧ average_nondeterminism rep
       = Qdiv (inject_Z (num_configs rep)) (inject_Z depth)).
Proof.
  unfold accept_and_halt. rewrite print_accept_path_cases_core.
  destruct (decide (Z.of_nat (length tree) - 1 < 0)) as [Hneg|Hneg].
  { intros [= <- <- <-]. split; [done|]. split; [done|]. split; [lia|].
    intros Hne. destruct tree; [done | simpl length in Hneg; lia]. }
  destruct (decide (Z.of_nat (length tree) ≤ Z.of_nat (length tree) - 1));
    [lia|].
  destruct (decide (Z.of_nat (length tree) - 1 = 0)) as [Hz|Hz]; [done|].
  cbv zeta. intros [= <- <- <-]. split; [done|]. split; [done|]. split; [done|].
  intros _. simpl.
  rewrite take_ge by lia.
  destruct (level_census_spec tree 0) as (_ & Hlen & _).
  by rewrite Hlen.
Qed.

(** X17.  The report of an [Accepted] outcome is a census of the whole
    tree: it lists every configuration of every level with its level
    number, its count is the number of configurations in the tree, which
    is more than the depth, and its average is that count over the depth.
    The run has consumed at least as many transitions as the depth. *)
Theorem accepted_report_is_census
    self input_data max_depth max_steps n depth rep tree steps_count :
  run self input_data max_depth max_steps
    = Some (Return (Accepted n depth rep), (tree, steps_count)) →
  level_lines rep = level_census 0 tree
  ∧ num_configs rep = Z.of_nat (length (concat tree))
  ∧ depth + 1 ≤ num_configs rep
  ∧ average_nondeterminism rep
    = Qdiv (inject_Z (num_configs rep)) (inject_Z depth)
  ∧ depth ≤ n
  ∧ map snd (level_lines rep) = concat tree
  ∧ ∀ j c, (j, c) ∈ level_lines rep
           ↔ ∃ i level, j = Z.of_nat i ∧ tree !! i = Some level ∧ c ∈ level.
Proof.
  intros Hrun.
  apply run_last_round in Hrun
    as (k & Hacc & Hne & _ & [([=] & _)|(Hg & Hb)]).
  set (c0 := initial_config self input_data) in *.
  apply loop_body_bfs_halt in Hb
    as [(n' & Hr & [= -> ->] & Hle & Hex)|[([=] & _)|(_ & _ & [[=]|([=] & _)])]].
  assert (bfs_tree self c0 k ≠ []) as Htree
    by (intros H; apply (f_equal length) in H;
        rewrite bfs_tree_length in H; done).
  symmetry in Hr. apply accept_and_halt_report in Hr as (-> & Hd & _ & Hrep).
  destruct (Hrep Htree) as (Hlines & Hnum & Havg).
  rewrite bfs_tree_length in Hd.
  destruct (level_census_spec (bfs_tree self c0 k) 0) as (Hsnd & _ & Hin).
  split; [done|]. split; [done|]. split; [|split; [done|split; [|split]]].
  - rewrite Hnum, Hd.
    assert (length (bfs_tree self c0 k) ≤ length (concat (bfs_tree self c0 k)))%nat
      as Hcount.
    { apply nonempty_levels_concat. apply Forall_forall. intros level Hlevel.
      apply elem_of_map in Hlevel as (i & -> & Hi).
      apply elem_of_seq in Hi. apply Hne. lia. }
    rewrite bfs_tree_length in Hcount. lia.
  - pose proof (consumed_at_least_depth self c0 k Hne). lia.
  - by rewrite Hlines.
  - intros j c. rewrite Hlines. exact (Hin j c).
Qed.

Lemma accepted_report_is_census_witness :
  level_lines
    (Report [(0, Config "" "q0" "a"); (1, Config "a" "q0" "_");
             (1, Config "a" "qacc" "_")] 3 (Qdiv (inject_Z 3) (inject_Z 1)))
  = level_census 0
      [[Config "" "q0" "a"]; [Config "a" "q0" "_"; Config "a" "qacc" "_"]]
  ∧ 1 + 1 ≤ 3 ∧ 1 ≤ 2.
Proof.
  destruct (accepted_report_is_census race_loop_first "a" 100 1000 2 1
              (Report
                 [(0, Config "" "q0" "a"); (1, Config "a" "q0" "_");
                  (1, Config "a" "qacc" "_")] 3
                 (Qdiv (inject_Z 3) (inject_Z 1)))
              [[Config "" "q0" "a"];
               [Config "a" "q0" "_"; Config "a" "qacc" "_"]] 2
              ltac:(vm_compute; reflexivity))
    as (H1 & _ & H3 & _ & H5 & _).
  exact (conj H1 (conj H3 H5)).
Defined.

(** X18.  A [Rejected] outcome at depth [k] means that every configuration
    the machine reaches in [k] steps is in the reject state (a stuck
    branch counts, through its synthesized successor) and that it reaches
    no accepting configuration in fewer steps.  The tree at the halt is
    the breadth-first tree of depth [k], and the transitions consumed are
    the configurations examined below level [k]. *)
Theorem rejected_means_all_branches_reject
    self input_data max_depth max_steps n depth tree steps_count :
  run self input_data max_depth max_steps
    = Some (Return (Rejected n depth), (tree, steps_count)) →
  ∃ k, depth = Z.of_nat k
    ∧ tree = bfs_tree self (initial_config self input_data) k
    ∧ n = consumed self (initial_config self input_data) k
    ∧ steps_count = n
    ∧ (∀ c, path self (initial_config self input_data) k c →
         current_state c = reject self)
    ∧ (∀ i c, (i < k)%nat →
         path self (initial_config self input_data) i c →
         current_state c ≠ accept self).
Proof.
  intros Hrun.
  apply run_last_round in Hrun
    as (k & Hacc & Hne & _ & [([=] & _)|(Hg & Hb)]).
  set (c0 := initial_config self input_data) in *.
  apply loop_body_bfs_halt in Hb
    as [(n' & Hr & _)|[([=] & _)|(Hacck & Hst & [[=]|(Hr & Hany)])]].
  { assert (bfs_tree self c0 k ≠ []) as Htree
      by (intros H; apply (f_equal length) in H;
          rewrite bfs_tree_length in H; done).
    destruct (accept_and_halt_cases (bfs_tree self c0 k) n' Htree)
      as [[_ Hraise]|[_ [rep' Hret]]]; congruence. }
  pose proof (f_equal fst Hst) as Ht. pose proof (f_equal snd Hst) as Hs.
  cbn [fst snd] in Ht, Hs, Hr. subst tree steps_count.
  assert (n = consumed self c0 k + examined self (bfs_level self c0 k)
          ∧ depth = Z.of_nat (length (append_level (bfs_tree self c0 k)
                                        (bfs_level self c0 (S k)))) - 1)
    as [-> ->] by (split; congruence).
  clear Hst Hr.
  apply any_not_reject_false in Hany.
  assert (∀ i, (i < S k)%nat →
            Forall (λ c, current_state c ≠ accept self) (bfs_level self c0 i))
    as Hacc'.
  { intros i Hi. destruct (decide (i = k)) as [->|]; [done|]. apply Hacc. lia. }
  assert (∀ j, (∀ i, (i < j)%nat →
                  Forall (λ c, current_state c ≠ accept self)
                    (bfs_level self c0 i)) →
               ∀ i c, (i < j)%nat → path self c0 i c →
                      current_state c ≠ accept self) as Hpaths.
  { intros j Hj i c Hi Hpath. apply bfs_level_path in Hpath.
    by apply (proj1 (Forall_forall _ _) (Hj i Hi)). }
  destruct (bfs_level self c0 (S k)) as [|c1 level1] eqn:Hnext.
  - (* nothing to append: the last level itself rejects *)
    exists k. unfold append_level. rewrite bfs_tree_length.
    assert (examined self (bfs_level self c0 k) = 0) as Hex.
    { unfold examined. simpl in Hnext. unfold next_level_of in Hnext.
      destruct (List.filter (expandable self) (bfs_level self c0 k))
        as [|c cs] eqn:Hf; [done|].
      simpl in Hnext. apply app_eq_nil in Hnext as [Hsucc _].
      by apply successors_nonempty in Hsucc. }
    rewrite Hex. split; [lia|]. split; [done|]. split; [lia|]. split; [done|].
    split; [|by apply Hpaths].
    intros c Hpath. apply bfs_level_path in Hpath.
    apply (proj1 (Forall_forall _ _) Hacck) in Hpath as Hnacc.
    destruct (expandable self c) eqn:Hexp.
    + exfalso. unfold examined in Hex.
      assert (c ∈ List.filter (expandable self) (bfs_level self c0 k)) as Hin
        by (rewrite list_elem_of_In, filter_In, <- list_elem_of_In; done).
      destruct (List.filter (expandable self) (bfs_level self c0 k));
        [by apply elem_of_nil in Hin | simpl in Hex; lia].
    + apply expandable_false in Hexp as [?|?]; done.
  - exists (S k). unfold append_level. rewrite <- Hnext, <- bfs_tree_S.
    rewrite bfs_tree_length.
    split; [lia|]. split; [done|]. split; [done|]. split; [done|].
    split; [|by apply Hpaths].
    intros c Hpath. apply bfs_level_path in Hpath. rewrite Hnext in Hpath.
    by apply (proj1 (Forall_forall _ _) Hany).
Qed.

Lemma rejected_means_all_branches_reject_witness :
  ∃ k, 1 = Z.of_nat k
    ∧ [[Config "" "q0" ""]; [Config "" "qrej" ""]]
      = bfs_tree stuck_tm (initial_config stuck_tm "") k
    ∧ 1 = consumed stuck_tm (initial_config stuck_tm "") k
    ∧ 1 = 1
    ∧ (∀ c, path stuck_tm (initial_config stuck_tm "") k c →
         current_state c = reject stuck_tm)
    ∧ (∀ i c, (i < k)%nat →
         path stuck_tm (initial_config stuck_tm "") i c →
         current_state c ≠ accept stuck_tm).
Proof.
  apply (rejected_means_all_branches_reject stuck_tm "" 100 1000).
  vm_compute. reflexivity.
Defined.

(** X19.  [NoPath] says nothing about the machine: it is returned exactly
    when the loop guard fails, with the counter at [max_steps] (at [0] for a
    budget that is not positive).  With a positive budget the budget ran
    out exactly between two levels, and the last level of the tree still
    holds a configuration that does not reject. *)
Theorem no_path_means_budget_spent_between_levels
    self input_data max_depth max_steps tree steps_count :
  run self input_data max_depth max_steps
    = Some (Return NoPath, (tree, steps_count)) →
  steps_count = Z.max 0 max_steps
  ∧ ∃ k, tree = bfs_tree self (initial_config self input_data) k
      ∧ steps_count = consumed self (initial_config self input_data) k
      ∧ (0 < max_steps →
         (0 < k)%nat
         ∧ any_not_reject self
             (bfs_level self (initial_config self input_data) k) = true).
Proof.
  intros Hrun.
  apply run_last_round in Hrun
    as (k & Hacc & Hne & Hlive & [(_ & Hst & Hg)|(Hg & Hb)]).
  - set (c0 := initial_config self input_data) in *.
    pose proof (f_equal fst Hst) as Ht. pose proof (f_equal snd Hst) as Hs.
    cbn [fst snd] in Ht, Hs. subst tree steps_count.
    destruct k as [|k].
    + simpl consumed in *. split; [lia|]. exists 0%nat.
      split; [done|]. split; [done|]. intros Hpos. lia.
    + destruct Hlive as (Hany & _ & Hle); [lia|].
      pose proof (consumed_at_least_depth self c0 (S k) Hne).
      split; [lia|]. exists (S k). split; [done|]. split; [done|].
      intros _. split; [lia | done].
  - apply loop_body_halt in Hb as [_ Hspec]; [done|].
    intros H. apply (f_equal length) in H. by rewrite bfs_tree_length in H.
Qed.

Lemma no_path_means_budget_spent_between_levels_witness :
  1 = Z.max 0 1
  ∧ ∃ k, [[Config "" "q0" "a"]; [Config "a" "q0" "_"]]
         = bfs_tree looping_tm (initial_config looping_tm "a") k
      ∧ 1 = consumed looping_tm (initial_config looping_tm "a") k
      ∧ (0 < 1 →
         (0 < k)%nat
         ∧ any_not_reject looping_tm
             (bfs_level looping_tm (initial_config looping_tm "a") k) = true).
Proof.
  apply (no_path_means_budget_spent_between_levels looping_tm "a" 100 1).
  vm_compute. reflexivity.
Defined.

(** ** Runs that have enough room *)

(** A run is decided by the locals its loop reaches: where the loop halts
    in a round, the run ends as that round does. *)
Lemma run_of_reachable_halt self input_data max_depth max_steps st r st' :
  reachable (set_limits self max_depth max_steps) input_data st →
  st.1 ≠ [] → st.2 < max_steps →
  loop_body (set_limits self max_depth max_steps) st.1 st.2 = Halt r st' →
  run self input_data max_depth max_steps = Some (r, st').
Proof.
  intros Hreach Hne Hg Hb.
  destruct (run_total self input_data max_depth max_steps) as [[r0 st0] Hrun].
  rewrite Hrun. f_equal.
  apply run_ends in Hrun as (st_last & Hreach' & Hstop' & Hend).
  assert (∀ w, ¬ loop_step (set_limits self max_depth max_steps) st w) as Hstop.
  { intros w (_ & _ & Hb'). congruence. }
  pose proof (loop_steps_chain _ _ _ _ Hreach Hreach' Hstop') as Hfwd.
  assert (st = st_last) as <-.
  { inversion Hfwd as [|? y ? Hstep _]; subst; [done|]. by apply Hstop in Hstep. }
  destruct Hend as [(_ & _ & Hg')|(_ & _ & Hb')]; [done | congruence].
Qed.

Lemma scan_level_exists_accept self tree level next_level steps_count :
  Exists (λ c, current_state c = accept self) level →
  steps_count + examined self level ≤ transition_limit self →
  ∃ n, scan_level self tree level next_level steps_count
       = ScanReturn (accept_and_halt tree n) n
    ∧ steps_count ≤ n ≤ steps_count + examined self level.
Proof.
  revert next_level steps_count.
  induction level as [|c level IH]; intros next_level steps_count Hex Hbudget;
    [by apply Exists_nil in Hex|].
  rewrite examined_cons in Hbudget.
  pose proof (examined_nonneg self level) as Hnn.
  destruct (decide (current_state c = accept self)) as [Hc|Hc].
  { exists steps_count. rewrite scan_level_accept by done. rewrite examined_cons.
    split; [done|]. destruct (expandable self c); lia. }
  apply Exists_cons in Hex as [Hex|Hex]; [done|].
  rewrite examined_cons.
  destruct (expandable self c) eqn:Hexp.
  - apply expandable_true in Hexp as [_ Hrej].
    rewrite scan_level_expand by (done || lia).
    destruct (IH (next_level ++ successors self c) (steps_count + 1) Hex)
      as (n & -> & Hn); [lia|].
    exists n. split; [done | lia].
  - apply expandable_false in Hexp as [?|Hrej]; [done|].
    rewrite scan_level_skip by done.
    destruct (IH next_level steps_count Hex) as (n & -> & Hn); [lia|].
    exists n. split; [done | lia].
Qed.

(** The loop reaches the breadth-first tree of depth [k] when the levels
    below hold no accepting configuration, the levels up to [k] keep a
    configuration that does not reject, and the limits leave room. *)
Lemma bfs_tree_reachable self input_data max_depth max_steps k :
  (∀ i, (i < k)%nat →
     Forall (λ c, current_state c ≠ accept self)
       (bfs_level self (initial_config self input_data) i)) →
  (∀ i, (0 < i ≤ k)%nat →
     any_not_reject self
       (bfs_level self (initial_config self input_data) i) = true) →
  ((0 < k)%nat → Z.of_nat k + 1 ≤ max_depth) →
  consumed self (initial_config self input_data) k ≤ max_steps →
  reachable (set_limits self max_depth max_steps) input_data
    (bfs_tree self (initial_config self input_data) k,
     consumed self (initial_config self input_data) k).
Proof.
  set (c0 := initial_config self input_data).
  set (self' := set_limits self max_depth max_steps).
  induction k as [|k IH]; intros Hacc Hlive Hdepth Hbudget.
  { apply rtc_refl. }
  assert (1 ≤ examined self (bfs_level self c0 k)) as Hex.
  { apply next_level_examined.
    apply (any_not_reject_nonempty self). apply (Hlive (S k)). lia. }
  simpl consumed in Hbudget.
  eapply rtc_r.
  - apply IH.
    + intros i Hi. apply Hacc. lia.
    + intros i Hi. apply Hlive. lia.
    + intros _. lia.
    + lia.
  - split; [|split]; cbn [fst snd].
    + intros H. apply (f_equal length) in H. by rewrite bfs_tree_length in H.
    + change (consumed self c0 k < max_steps). lia.
    + rewrite (loop_body_round self' _ (bfs_level self c0 k));
        [ | apply bfs_tree_last | apply Hacc; lia
          | right;
            change (consumed self c0 k + examined self (bfs_level self c0 k)
                    ≤ max_steps); lia ].
      cbv zeta.
      change (next_level_of self' (bfs_level self c0 k))
        with (bfs_level self c0 (S k)).
      change (examined self' (bfs_level self c0 k))
        with (examined self (bfs_level self c0 k)).
      change (any_not_reject self' (bfs_level self c0 (S k)))
        with (any_not_reject self (bfs_level self c0 (S k))).
      assert (append_level (bfs_tree self c0 k) (bfs_level self c0 (S k))
              = bfs_tree self c0 (S k)) as ->.
      { rewrite bfs_tree_S. unfold append_level.
        pose proof (any_not_reject_nonempty self _ (Hlive (S k) ltac:(lia))).
        by destruct (bfs_level self c0 (S k)). }
      rewrite bfs_tree_length.
      rewrite bool_decide_false
        by (change (depth_limit self') with max_depth; lia).
      rewrite (Hlive (S k)) by lia. done.
Qed.

Lemma next_level_live self level :
  next_level_of self level ≠ [] → any_not_reject self level = true.
Proof.
  intros Hne. destruct (next_level_of self level) as [|c' rest] eqn:Hnext;
    [done|].
  assert (c' ∈ next_level_of self level) as Hin
    by (rewrite Hnext; apply list_elem_of_here).
  apply elem_of_next_level_of in Hin as (c & Hc & Hexp & _).
  apply expandable_true in Hexp as [_ Hrej].
  unfold any_not_reject. apply existsb_exists. exists c.
  rewrite <- list_elem_of_In. split; [done|].
  apply String.eqb_neq in Hrej. by rewrite Hrej.
Qed.

Lemma levels_live self c0 k i :
  bfs_level self c0 k ≠ [] → (i < k)%nat →
  any_not_reject self (bfs_level self c0 i) = true.
Proof.
  intros Hk Hi. apply next_level_live.
  change (next_level_of self (bfs_level self c0 i))
    with (bfs_level self c0 (S i)).
  intros Hempty. apply Hk.
  replace k with (S i + (k - S i))%nat by lia.
  by apply bfs_level_empty_after.
Qed.

Lemma paths_without_accept self c0 k :
  (∀ i c, (i < k)%nat → path self c0 i c → current_state c ≠ accept self) →
  ∀ i, (i < k)%nat →
    Forall (λ c, current_state c ≠ accept self) (bfs_level self c0 i).
Proof.
  intros Hpaths i Hi. apply Forall_forall. intros c Hc.
  apply (Hpaths i c Hi). by apply bfs_level_path.
Qed.

(** X20.  Acceptance is found when there is room for it: if the machine
    reaches an accepting configuration in [k ≥ 1] steps and none in fewer,
    the depth limit is above [k], and the budget covers the
    configurations examined up to level [k], then the run returns
    [Accepted] at depth [k], on the breadth-first tree of that depth. *)
Theorem accepting_path_is_found
    self input_data max_depth max_steps k c :
  (1 ≤ k)%nat →
  path self (initial_config self input_data) k c →
  current_state c = accept self →
  (∀ i c', (i < k)%nat →
     path self (initial_config self input_data) i c' →
     current_state c' ≠ accept self) →
  accept self ≠ reject self →
  Z.of_nat k + 1 ≤ max_depth →
  consumed self (initial_config self input_data) k < max_steps →
  consumed self (initial_config self input_data) (S k) ≤ max_steps →
  ∃ n rep,
    run self input_data max_depth max_steps
    = Some (Return (Accepted n (Z.of_nat k) rep),
            (bfs_tree self (initial_config self input_data) k, n))
    ∧ consumed self (initial_config self input_data) k ≤ n
      ≤ consumed self (initial_config self input_data) (S k).
Proof.
  set (c0 := initial_config self input_data).
  intros Hk Hpath Hstate Hshort Hdistinct Hdepth Hguard Hbudget.
  apply bfs_level_path in Hpath.
  assert (bfs_level self c0 k ≠ []) as Hne by (by destruct (bfs_level self c0 k);
    [apply elem_of_nil in Hpath|]).
  pose proof (paths_without_accept self c0 k Hshort) as Hacc.
  assert (∀ i, (0 < i ≤ k)%nat →
            any_not_reject self (bfs_level self c0 i) = true) as Hlive.
  { intros i Hi. destruct (decide (i = k)) as [->|]; [|apply (levels_live self c0 k); [done|lia]].
    unfold any_not_reject. apply existsb_exists. exists c.
    rewrite <- list_elem_of_In. split; [done|].
    rewrite Hstate. apply String.eqb_neq in Hdistinct. by rewrite Hdistinct. }
  assert (reachable (set_limits self max_depth max_steps) input_data
            (bfs_tree self c0 k, consumed self c0 k)) as Hreach.
  { apply bfs_tree_reachable; [done | done | intros _; lia | fold c0; lia]. }
  assert (Exists (λ c, current_state c = accept self) (bfs_level self c0 k))
    as Hex by (apply Exists_exists; eauto).
  destruct (scan_level_exists_accept (set_limits self max_depth max_steps)
              (bfs_tree self c0 k) (bfs_level self c0 k) []
              (consumed self c0 k) Hex) as (n & Hscan & Hn).
  { change (consumed self c0 (S k) ≤ max_steps). done. }
  change (examined (set_limits self max_depth max_steps) (bfs_level self c0 k))
    with (examined self (bfs_level self c0 k)) in Hn.
  assert (bfs_tree self c0 k ≠ []) as Htree
    by (intros H; apply (f_equal length) in H;
        rewrite bfs_tree_length in H; done).
  destruct (accept_and_halt_cases (bfs_tree self c0 k) n Htree)
    as [[Hlen _]|[_ [rep Hret]]]; [rewrite bfs_tree_length in Hlen; lia|].
  rewrite bfs_tree_length in Hret.
  exists n, rep. split; [|simpl consumed; lia].
  apply (run_of_reachable_halt _ _ _ _ _ _ _ Hreach); [done | done |].
  cbn [fst snd]. unfold loop_body. rewrite bfs_tree_last, Hscan, Hret.
  do 3 f_equal. lia.
Qed.

Lemma accepting_path_is_found_witness :
  ∃ n rep,
    run race_loop_first "a" 100 1000
    = Some (Return (Accepted n (Z.of_nat 1) rep),
            (bfs_tree race_loop_first (initial_config race_loop_first "a") 1,
             n))
    ∧ consumed race_loop_first (initial_config race_loop_first "a") 1 ≤ n
      ≤ consumed race_loop_first (initial_config race_loop_first "a") 2.
Proof.
  apply (accepting_path_is_found race_loop_first "a" 100 1000 1
           (Config "a" "qacc" "_")).
  - lia.
  - apply bfs_level_path. vm_compute. apply list_elem_of_further.
    apply list_elem_of_here.
  - vm_compute. reflexivity.
  - intros i c' Hi Hpath. replace i with 0%nat in Hpath by lia.
    inversion Hpath; subst. vm_compute. discriminate.
  - vm_compute. discriminate.
  - lia.
  - vm_compute. reflexivity.
  - vm_compute. discriminate.
Defined.

(** The last round of a run that scans level [k] through, under limits that
    let the loop get there: the locals from which it starts are reached. *)
Lemma round_on_level_reachable self input_data max_depth max_steps k :
  (∀ i c, (i < S k)%nat →
     path self (initial_config self input_data) i c →
     current_state c ≠ accept self) →
  bfs_level self (initial_config self input_data) (S k) ≠ [] →
  Z.of_nat k + 1 ≤ max_depth ∨ k = 0%nat →
  consumed self (initial_config self input_data) (S k) ≤ max_steps →
  reachable (set_limits self max_depth max_steps) input_data
    (bfs_tree self (initial_config self input_data) k,
     consumed self (initial_config self input_data) k)
  ∧ consumed self (initial_config self input_data) k < max_steps
  ∧ loop_body (set_limits self max_depth max_steps)
      (bfs_tree self (initial_config self input_data) k)
      (consumed self (initial_config self input_data) k)
    = let tree' := bfs_tree self (initial_config self input_data) (S k) in
      let n := consumed self (initial_config self input_data) (S k) in
      if bool_decide (Z.of_nat (S (S k)) > max_depth) then
        Halt (Return (DepthLimitExceeded n max_depth)) (tree', n)
      else if negb (any_not_reject self
                      (bfs_level self (initial_config self input_data) (S k)))
      then Halt (Return (Rejected n (Z.of_nat (S k)))) (tree', n)
      else Continue (tree', n).
Proof.
  set (c0 := initial_config self input_data).
  set (self' := set_limits self max_depth max_steps).
  intros Hshort Hne Hdepth Hbudget.
  pose proof (paths_without_accept self c0 (S k) Hshort) as Hacc.
  assert (1 ≤ examined self (bfs_level self c0 k)) as Hex
    by (by apply next_level_examined).
  simpl consumed in Hbudget.
  split; [|split; [lia|]].
  - apply bfs_tree_reachable.
    + intros i Hi. apply Hacc. lia.
    + intros i Hi. apply (levels_live self c0 (S k)); [done|lia].
    + intros Hk. destruct Hdepth; lia.
    + fold c0. lia.
  - rewrite (loop_body_round self' _ (bfs_level self c0 k));
      [ | apply bfs_tree_last | apply Hacc; lia
        | right;
          change (consumed self c0 k + examined self (bfs_level self c0 k)
                  ≤ max_steps); lia ].
    cbv zeta.
    change (next_level_of self' (bfs_level self c0 k))
      with (bfs_level self c0 (S k)).
    change (examined self' (bfs_level self c0 k))
      with (examined self (bfs_level self c0 k)).
    change (any_not_reject self' (bfs_level self c0 (S k)))
      with (any_not_reject self (bfs_level self c0 (S k))).
    change (depth_limit self') with max_depth.
    assert (append_level (bfs_tree self c0 k) (bfs_level self c0 (S k))
            = bfs_tree self c0 (S k)) as ->.
    { rewrite bfs_tree_S. unfold append_level.
      by destruct (bfs_level self c0 (S k)). }
    rewrite bfs_tree_length.
    replace (Z.of_nat (S (S k)) - 1) with (Z.of_nat (S k)) by lia.
    done.
Qed.

(** X21.  Rejection is found when there is room for it: if every
    configuration the machine reaches in [k ≥ 1] steps is in the reject
    state, there is one, no accepting configuration is reached in fewer
    steps, the depth limit is above [k] and the budget covers the
    configurations examined below level [k], then the run returns
    [Rejected] at depth [k] with exactly that many transitions consumed. *)
Theorem rejecting_level_is_found self input_data max_depth max_steps k c :
  (1 ≤ k)%nat →
  path self (initial_config self input_data) k c →
  (∀ c', path self (initial_config self input_data) k c' →
     current_state c' = reject self) →
  (∀ i c', (i < k)%nat →
     path self (initial_config self input_data) i c' →
     current_state c' ≠ accept self) →
  Z.of_nat k + 1 ≤ max_depth →
  consumed self (initial_config self input_data) k ≤ max_steps →
  run self input_data max_depth max_steps
  = Some (Return (Rejected (consumed self (initial_config self input_data) k)
                    (Z.of_nat k)),
          (bfs_tree self (initial_config self input_data) k,
           consumed self (initial_config self input_data) k)).
Proof.
  set (c0 := initial_config self input_data).
  intros Hk Hpath Hrej Hshort Hdepth Hbudget.
  destruct k as [|k]; [lia|].
  apply bfs_level_path in Hpath.
  assert (bfs_level self c0 (S k) ≠ []) as Hne.
  { intros Hempty. rewrite Hempty in Hpath. by apply elem_of_nil in Hpath. }
  destruct (round_on_level_reachable self input_data max_depth max_steps k)
    as (Hreach & Hguard & Hround); [done | done | left; lia | done |].
  fold c0 in Hreach, Hguard, Hround. cbv zeta in Hround.
  rewrite bool_decide_false in Hround by lia.
  assert (any_not_reject self (bfs_level self c0 (S k)) = false) as Hany.
  { apply any_not_reject_false. apply Forall_forall. intros c' Hc'.
    apply Hrej. by apply bfs_level_path. }
  rewrite Hany in Hround. cbn [negb] in Hround.
  apply (run_of_reachable_halt _ _ _ _ _ _ _ Hreach); [|done|done].
  cbn [fst]. intros H. apply (f_equal length) in H.
  by rewrite bfs_tree_length in H.
Qed.

Lemma rejecting_level_is_found_witness :
  run stuck_tm "" 100 1000
  = Some (Return (Rejected (consumed stuck_tm (initial_config stuck_tm "") 1)
                    (Z.of_nat 1)),
          (bfs_tree stuck_tm (initial_config stuck_tm "") 1,
           consumed stuck_tm (initial_config stuck_tm "") 1)).
Proof.
  apply (rejecting_level_is_found stuck_tm "" 100 1000 1 (Config "" "qrej" "")).
  - lia.
  - apply bfs_level_path. vm_compute. apply list_elem_of_here.
  - intros c' Hc'. apply bfs_level_path in Hc'. vm_compute in Hc'.
    apply list_elem_of_singleton in Hc' as ->. vm_compute. reflexivity.
  - intros i c' Hi Hpath. replace i with 0%nat in Hpath by lia.
    inversion Hpath; subst. vm_compute. discriminate.
  - lia.
  - vm_compute. discriminate.
Defined.

(** X22.  The depth limit is reached when the exploration is still alive at
    depth [max_depth ≥ 1]: if the machine reaches some configuration in
    [max_depth] steps and no accepting one in fewer, and the budget covers
    the configurations examined below that level, then the run returns
    [DepthLimitExceeded], whatever the states at depth [max_depth] are (a
    level there that rejects, or accepts, is not looked at). *)
Theorem depth_limit_is_reached self input_data max_steps k c :
  (1 ≤ k)%nat →
  path self (initial_config self input_data) k c →
  (∀ i c', (i < k)%nat →
     path self (initial_config self input_data) i c' →
     current_state c' ≠ accept self) →
  consumed self (initial_config self input_data) k ≤ max_steps →
  run self input_data (Z.of_nat k) max_steps
  = Some (Return (DepthLimitExceeded
                    (consumed self (initial_config self input_data) k)
                    (Z.of_nat k)),
          (bfs_tree self (initial_config self input_data) k,
           consumed self (initial_config self input_data) k)).
Proof.
  set (c0 := initial_config self input_data).
  intros Hk Hpath Hshort Hbudget.
  destruct k as [|k]; [lia|].
  apply bfs_level_path in Hpath.
  assert (bfs_level self c0 (S k) ≠ []) as Hne.
  { intros Hempty. rewrite Hempty in Hpath. by apply elem_of_nil in Hpath. }
  destruct (round_on_level_reachable self input_data (Z.of_nat (S k))
              max_steps k)
    as (Hreach & Hguard & Hround); [done | done | left; lia | done |].
  fold c0 in Hreach, Hguard, Hround. cbv zeta in Hround.
  rewrite bool_decide_true in Hround by lia.
  apply (run_of_reachable_halt _ _ _ _ _ _ _ Hreach); [|done|done].
  cbn [fst]. intros H. apply (f_equal length) in H.
  by rewrite bfs_tree_length in H.
Qed.

Lemma depth_limit_is_reached_witness :
  run stuck_tm "" (Z.of_nat 1) 1000
  = Some (Return (DepthLimitExceeded
                    (consumed stuck_tm (initial_config stuck_tm "") 1)
                    (Z.of_nat 1)),
          (bfs_tree stuck_tm (initial_config stuck_tm "") 1,
           consumed stuck_tm (initial_config stuck_tm "") 1)).
Proof.
  apply (depth_limit_is_reached stuck_tm "" 1000 1 (Config "" "qrej" "")).
  - lia.
  - apply bfs_level_path. vm_compute. apply list_elem_of_here.
  - intros i c' Hi Hpath. replace i with 0%nat in Hpath by lia.
    inversion Hpath; subst. vm_compute. discriminate.
  - vm_compute. discriminate.
Defined.

(** X23.  Every call of [execute] ends, after at most [max_steps] turns of
    its loop.  It returns one of the five outcomes, except when the start
    state is the accept state and the budget is positive: then, and only
    then, it raises, and the exception is the [ZeroDivisionError] of the
    report. *)
Theorem execute_terminates self input_data max_depth max_steps :
  ∃ r st,
    run self input_data max_depth max_steps = Some (r, st)
    ∧ (if bool_decide (start self = accept self ∧ 0 < max_steps)
       then r = Raise ZeroDivisionError ∧ st = initial_locals self input_data
       else ∃ o, r = Return o).
Proof.
  destruct (run_total self input_data max_depth max_steps) as [[r st] Hrun].
  exists r, st. split; [done|].
  case_bool_decide as Hcase.
  - destruct Hcase as [Hacc Hpos].
    rewrite run_start_accept_raises in Hrun by done.
    by injection Hrun as <- <-.
  - destruct r as [o|e]; [by eexists|].
    apply run_raises_only_at_depth_0 in Hrun as (_ & Hacc & Hpos & _).
    exfalso. by apply Hcase.
Qed.
